(** * phre.optimizer.optimizer: the [Optimizer] parent class

    A shallow embedding of [src/phre/optimizer/optimizer.py] and the
    properties its specification states about it.

    Modelling choices.
    - A float64 entry of a NumPy array is idealised as an exact rational
      ([Q]); [alpha : float] likewise.  Rounding, infinities and NaN inside
      arrays are outside the model.  The fitting history, where the code
      stores [np.nan] on purpose, holds [pyfloat] values, which have a NaN.
    - One-dimensional arrays are objects with identity: they live in a
      store ([gmap loc (list Q)]) and methods receive and return locations,
      so that in-place updates ([v *= sign_v]) and aliasing are visible.
      In this store two arrays share data only by being the same object,
      and the observation operator, a two-dimensional array, is kept as
      a value with its shape.  That is all the value of a result depends
      on.  Where the property is what a call leaves in the memory of
      other arrays, [Views] has the same methods over memory cells, so
      that an array can be a view of another (a slice, a row or a column
      of the operator).
    - NumPy's exceptions are results: a method is a function from the store
      to an outcome and a store. *)

From Stdlib Require Import QArith Qabs Lqa.
From stdpp Require Import gmap strings list fin_maps.

Local Open Scope Q_scope.

(** ** Scalars *)

Module Scalar.

(** [np.sign] on a real entry: -1, 0 or 1. *)
Definition Qsgn (x : Q) : Q := inject_Z (Z.sgn (Qnum x)).

(** [x < y] as a NumPy comparison (a boolean). *)
Definition Qltb (x y : Q) : bool := negb (Qle_bool y x).

(** [x > y] is [y < x]. *)
Definition Qgtb (x y : Q) : bool := Qltb y x.

End Scalar.
Export Scalar.

(** ** Exceptions and the store *)

Inductive exn : Type :=
| ValueError            (* operands could not be broadcast together *)
| IndexError            (* boolean index did not match indexed array *)
| NotImplementedError
| InvalidRef.           (* no Python exception: a location holding no array *)

Inductive result (A : Type) : Type :=
| Ok (a : A)
| Raise (e : exn).
Arguments Ok {A} a.
Arguments Raise {A} e.

Definition loc := positive.
Abbreviation store := (gmap loc (list Q)).

(** A computation reads and writes the store and returns or raises; the
    store survives a raise, as in Python. *)
Definition M (A : Type) : Type := store → result A * store.

#[export] Instance M_ret : MRet M := fun A a h => (Ok a, h).
#[export] Instance M_bind : MBind M := fun A B k m h =>
  match m h with
  | (Ok a, h') => k a h'
  | (Raise e, h') => (Raise e, h')
  end.

Definition raise {A} (e : exn) : M A := fun h => (Raise e, h).
Definition lift {A} (r : result A) : M A := fun h => (r, h).

(** Reading an array object, overwriting one in place, allocating one. *)
Definition load (l : loc) : M (list Q) :=
  fun h => match h !! l with
           | Some a => (Ok a, h)
           | None => (Raise InvalidRef, h)
           end.

Definition store_at (l : loc) (a : list Q) : M unit :=
  fun h => match h !! l with
           | Some _ => (Ok tt, <[l := a]> h)
           | None => (Raise InvalidRef, h)
           end.

Definition alloc (a : list Q) : M loc :=
  fun h => let l := fresh (dom h) in (Ok l, <[l := a]> h).

(** ** The NumPy operations the class uses, on one-dimensional arrays *)

Module np.

Definition sign (a : list Q) : list Q := map Qsgn a.
Definition abs (a : list Q) : list Q := map Qabs a.
Definition sum (a : list Q) : Q := foldr Qplus 0 a.

(** [a op b] for two arrays: equal lengths pair up, a length-one operand
    is broadcast, anything else raises. *)
Definition broadcast2 {A B C} (f : A → B → C) (a : list A) (b : list B)
  : result (list C) :=
  if decide (length a = length b) then Ok (zip_with f a b)
  else match a, b with
       | [x], _ => Ok (map (f x) b)
       | _, [y] => Ok (map (fun x => f x y) a)
       | _, _ => Raise ValueError
       end.

(** [a op= b]: the result must have the shape of [a], so only [b] may be
    broadcast. *)
Definition inplace2 (f : Q → Q → Q) (a b : list Q) : result (list Q) :=
  if decide (length b = length a) then Ok (zip_with f a b)
  else match b with
       | [y] => Ok (map (fun x => f x y) a)
       | _ => Raise ValueError
       end.

(** The entries of [a] at the [true] positions of [mask]. *)
Fixpoint select (a : list Q) (mask : list bool) : list Q :=
  match a, mask with
  | x :: a', true :: m' => x :: select a' m'
  | _ :: a', false :: m' => select a' m'
  | _, _ => []
  end.

(** [a[mask]]: the mask must have the length of [a]; a mask of length
    zero is taken on an array of any length, and selects nothing. *)
Definition getmask (a : list Q) (mask : list bool) : result (list Q) :=
  if decide (length mask = length a) then Ok (select a mask)
  else match mask with
       | [] => Ok []
       | _ :: _ => Raise IndexError
       end.

(** Writing [vals], in order, at the [true] positions of [mask]. *)
Fixpoint put (w : list Q) (mask : list bool) (vals : list Q) : list Q :=
  match w, mask with
  | x :: w', true :: m' =>
      match vals with
      | y :: vals' => y :: put w' m' vals'
      | [] => x :: put w' m' []
      end
  | x :: w', false :: m' => x :: put w' m' vals
  | _, _ => w
  end.

Definition count_true (mask : list bool) : nat :=
  length (filter (fun b => b = true) mask).

(** [w[mask] = vals]: the mask must have the length of [w]; [vals] must
    supply one value per [true] position, or a single value for all.  A
    mask of length zero is taken on an array of any length: nothing is
    written, and [vals] must be empty or a single value. *)
Definition setmask (w : list Q) (mask : list bool) (vals : list Q)
  : result (list Q) :=
  if decide (length mask = length w) then
    if decide (length vals = count_true mask) then Ok (put w mask vals)
    else match vals with
         | [y] => Ok (put w mask (replicate (count_true mask) y))
         | _ => Raise ValueError
         end
  else match mask with
       | [] => match vals with
               | [] | [_] => Ok w
               | _ => Raise ValueError
               end
       | _ :: _ => Raise IndexError
       end.

(** A two-dimensional array: its shape and its rows. *)
Record ndarray2 : Type := Ndarray2 {
  shape0 : nat;
  shape1 : nat;
  rows : list (list Q)
}.

Definition wf (A : ndarray2) : Prop :=
  length (rows A) = shape0 A ∧ Forall (fun r => length r = shape1 A) (rows A).

Definition dotp (r x : list Q) : Q := sum (zip_with Qmult r x).

(** [A.dot(x)] for a matrix and a vector. *)
Definition dot (A : ndarray2) (x : list Q) : result (list Q) :=
  if decide (shape1 A = length x) then Ok (map (fun r => dotp r x) (rows A))
  else Raise ValueError.

End np.

(** ** The class *)

(** A Python float as the fitting history holds it. *)
Inductive pyfloat : Type :=
| NaN
| Fin (q : Q).

Record Optimizer : Type := MkOptimizer {
  obs_mat : np.ndarray2;
  obs : loc;
  obj_type : string;
  num_obs : nat;
  image_size : nat;
  obj_his : list pyfloat;
  err_his : list pyfloat
}.

Definition __init__ (obs_mat : np.ndarray2) (obs : loc) (obj_type : string)
  : M Optimizer :=
  mret {| obs_mat := obs_mat;
          obs := obs;
          obj_type := obj_type;
          num_obs := np.shape0 obs_mat;
          image_size := np.shape1 obs_mat;
          obj_his := [];
          err_his := [] |}.

(** The default of the [obj_type] parameter. *)
Definition default_obj_type : string := "soft".

Definition phase_retrieval (self : Optimizer)
    (fit_options : gmap string pyfloat) : M loc :=
  raise NotImplementedError.

Definition _soft_prox (self : Optimizer) (v : loc) (alpha : Q) : M loc :=
  a ← load v;
  let sign_v := np.sign a in
  a ← lift (np.inplace2 Qmult a sign_v);
  store_at v a;;
  o ← load (obs self);
  w ← alloc o;
  a ← load v;
  o ← load (obs self);
  r_index ← lift (np.broadcast2 Qgtb a (map (fun x => x + alpha) o));
  a ← load v;
  o ← load (obs self);
  l_index ← lift (np.broadcast2 Qltb a (map (fun x => x - alpha) o));
  a ← load v;
  vr ← lift (np.getmask a r_index);
  b ← load w;
  b ← lift (np.setmask b r_index (map (fun x => x - alpha) vr));
  store_at w b;;
  a ← load v;
  vl ← lift (np.getmask a l_index);
  b ← load w;
  b ← lift (np.setmask b l_index (map (fun x => x + alpha) vl));
  store_at w b;;
  b ← load w;
  b ← lift (np.inplace2 Qmult b sign_v);
  store_at w b;;
  mret w.

Definition _hard_prox (self : Optimizer) (v : loc) : M loc :=
  a ← load v;
  let sign_v := np.sign a in
  o ← load (obs self);
  w ← alloc o;
  b ← load w;
  b ← lift (np.inplace2 Qmult b sign_v);
  store_at w b;;
  mret w.

Definition objective (self : Optimizer) (x : loc) : M Q :=
  a ← load x;
  y ← lift (np.dot (obs_mat self) a);
  o ← load (obs self);
  d ← lift (np.broadcast2 Qminus (np.abs y) o);
  mret (np.sum (np.abs d)).

Definition reset_solver_info (self : Optimizer) : Optimizer :=
  {| obs_mat := obs_mat self;
     obs := obs self;
     obj_type := obj_type self;
     num_obs := num_obs self;
     image_size := image_size self;
     obj_his := [];
     err_his := [] |}.

Definition record_solver_info (self : Optimizer) (obj err : option pyfloat)
  : Optimizer :=
  let obj := match obj with None => NaN | Some x => x end in
  let err := match err with None => NaN | Some x => x end in
  {| obs_mat := obs_mat self;
     obs := obs self;
     obj_type := obj_type self;
     num_obs := num_obs self;
     image_size := image_size self;
     obj_his := obj_his self ++ [obj];
     err_his := err_his self ++ [err] |}.

(** ** Calls on an optimizer *)

(** A method call with its arguments, and what Python hands back. *)
Inductive call : Type :=
| call_phase_retrieval (fit_options : gmap string pyfloat)
| call_soft_prox (v : loc) (alpha : Q)
| call_hard_prox (v : loc)
| call_objective (x : loc)
| call_reset_solver_info
| call_record_solver_info (obj err : option pyfloat).

Inductive pyvalue : Type :=
| PyNone
| PyArray (l : loc)
| PyFloat (q : Q).

Definition returning {A} (f : A → pyvalue) (m : M A) : M pyvalue :=
  a ← m; mret (f a).

(** The outcome of a call, the optimizer after it and the store after
    it.  Only [reset_solver_info] and [record_solver_info] assign to
    fields of [self]. *)
Definition invoke (c : call) (self : Optimizer) (h : store)
  : result pyvalue * Optimizer * store :=
  match c with
  | call_phase_retrieval fit_options =>
      let '(r, h') := returning PyArray (phase_retrieval self fit_options) h in
      (r, self, h')
  | call_soft_prox v alpha =>
      let '(r, h') := returning PyArray (_soft_prox self v alpha) h in
      (r, self, h')
  | call_hard_prox v =>
      let '(r, h') := returning PyArray (_hard_prox self v) h in (r, self, h')
  | call_objective x =>
      let '(r, h') := returning PyFloat (objective self x) h in (r, self, h')
  | call_reset_solver_info => (Ok PyNone, reset_solver_info self, h)
  | call_record_solver_info obj err =>
      (Ok PyNone, record_solver_info self obj err, h)
  end.

(** ** The specification's notions *)

(** One coordinate of the soft proximal operator, as the specification
    words it: [s = sign v], [v' = |v|]; [v' - alpha] above the band,
    [v' + alpha] below it, the observation inside it; the sign is
    restored last. *)
Definition soft_coord (alpha o v : Q) : Q :=
  let s := Qsgn v in
  let v' := Qabs v in
  let w := if Qgtb v' (o + alpha) then v' - alpha
           else if Qltb v' (o - alpha) then v' + alpha
           else o in
  w * s.

(** One coordinate of the hard proximal operator: [sign v · o]. *)
Definition hard_coord (o v : Q) : Q := Qsgn v * o.

(** The stored observations as [_soft_prox] finds them after its first
    statement [v *= sign_v]: the stored ones, unless [v] is that very
    array, which by then holds its absolute values. *)
Definition obs_as_read (self : Optimizer) (v : loc) (vs os : list Q)
  : list Q :=
  if decide (v = obs self) then np.abs vs else os.

(** The objective as the specification words it: [y = A · x], then the
    sum over the observations of [| |y_i| - obs_i |], written out with
    indices. *)
Definition objective_spec (A : np.ndarray2) (os xs : list Q) : Q :=
  let y (i : nat) : Q :=
    np.sum (map (fun j => nth j (nth i (np.rows A) []) 0 * nth j xs 0)
                (seq 0 (np.shape1 A))) in
  np.sum (map (fun i => Qabs (Qabs (y i) - nth i os 0))
              (seq 0 (np.shape0 A))).

(** The specification's ShapeError: the two NumPy exceptions a dimension
    mismatch shows up as. *)
Definition ShapeError (e : exn) : Prop := e = ValueError ∨ e = IndexError.

(** Index alignment of the two histories. *)
Definition aligned (self : Optimizer) : Prop :=
  length (obj_his self) = length (err_his self).

(** One call of [record_solver_info] per pair of arguments, in order. *)
Definition record_all (self : Optimizer)
    (args : list (option pyfloat * option pyfloat)) : Optimizer :=
  foldl (fun s a => record_solver_info s a.1 a.2) self args.

(** The same optimizer with another objective type. *)
Definition with_obj_type (self : Optimizer) (t : string) : Optimizer :=
  {| obs_mat := obs_mat self;
     obs := obs self;
     obj_type := t;
     num_obs := num_obs self;
     image_size := image_size self;
     obj_his := obj_his self;
     err_his := err_his self |}.

(** *** Two statements of the specification, each at one call *)

(** With [alpha = 0] the soft proximal operator returns
    [sign v · obs]. *)
Definition soft_prox_at_zero_is_hard
    (self : Optimizer) (h : store) (v : loc) (vs os : list Q) : Prop :=
  ∃ (w : loc) (ws : list Q) (h' : store),
    _soft_prox self v 0 h = (Ok w, h') ∧
    h' !! w = Some ws ∧
    Forall2 Qeq ws (zip_with hard_coord os vs).

(** With observations whose length is not the operator's row count,
    [__init__] raises a shape error. *)
Definition init_rejects_mismatch
    (A : np.ndarray2) (l : loc) (os : list Q) (t : string) (h : store)
  : Prop :=
  h !! l = Some os → length os ≠ np.shape0 A →
  ∃ e, (__init__ A l t h).1 = Raise e ∧ ShapeError e.

(** ** Concrete stores and optimizers *)

(** The scenario of the specification: the 2×2 identity as operator and
    observations [3, 4]. *)
Module Scenario.
Definition eye2 : np.ndarray2 := np.Ndarray2 2 2 [[1; 0]; [0; 1]].
Definition l_obs : loc := 1%positive.
Definition l_v : loc := 2%positive.
Definition l_x : loc := 3%positive.

(** The store: the observations, a reference vector [v] and a candidate
    signal [x]. *)
Definition mem (v x : list Q) : store :=
  <[l_x := x]> (<[l_v := v]> (<[l_obs := [3; 4]]> ∅)).

Definition opt : Optimizer :=
  {| obs_mat := eye2; obs := l_obs; obj_type := default_obj_type;
     num_obs := 2; image_size := 2; obj_his := []; err_his := [] |}.
End Scenario.

(** The same operator with an observation array [os] of any length. *)
Module Mismatch.
Definition mem (os x : list Q) : store :=
  <[Scenario.l_x := x]> (<[Scenario.l_obs := os]> ∅).
End Mismatch.

(** ** Arrays as views of memory

    The store above tells arrays apart by location, which is all the
    value of a result depends on.  What a call leaves in the memory of
    other arrays depends on more: NumPy arrays are views, and [a[:]], a
    slice, a row or a column of a matrix share the memory of [a] without
    being [a].  Here memory is a map from cell addresses to entries, and
    an array is the list of the cells of its entries, in index order; two
    arrays share data where they share cells.  The methods are the same
    statements over this memory. *)

Module Views.

Definition addr := positive.
Abbreviation memory := (gmap addr Q).

Definition ndarray := list addr.

(** A two-dimensional array: its shape and the cells of its rows. *)
Record ndarray2 : Type := Ndarray2 {
  shape0 : nat;
  shape1 : nat;
  rows : list ndarray
}.

Definition Mem (A : Type) : Type := memory → result A * memory.

#[export] Instance Mem_ret : MRet Mem := fun A a m => (Ok a, m).
#[export] Instance Mem_bind : MBind Mem := fun A B k c m =>
  match c m with
  | (Ok a, m') => k a m'
  | (Raise e, m') => (Raise e, m')
  end.

Definition lift {A} (r : result A) : Mem A := fun m => (r, m).

(** The entries of an array. *)
Definition peek (m : memory) (a : ndarray) : option (list Q) :=
  mapM (fun p => m !! p) a.

(** The memory after [xs] is written to the cells of [a], in index
    order. *)
Definition poke (m : memory) (a : ndarray) (xs : list Q) : memory :=
  foldl (fun m' px => <[px.1 := px.2]> m') m (zip a xs).

Definition read (a : ndarray) : Mem (list Q) :=
  fun m => match peek m a with
           | Some xs => (Ok xs, m)
           | None => (Raise InvalidRef, m)
           end.

Definition read2 (A : ndarray2) : Mem np.ndarray2 :=
  fun m => match mapM (peek m) (rows A) with
           | Some rs => (Ok (np.Ndarray2 (shape0 A) (shape1 A) rs), m)
           | None => (Raise InvalidRef, m)
           end.

(** An in-place update of the entries of [a]. *)
Definition write (a : ndarray) (xs : list Q) : Mem unit :=
  fun m => (Ok tt, poke m a xs).

(** A new array, over cells that were not in use. *)
Definition new (xs : list Q) : Mem ndarray :=
  fun m => let a := fresh_list (length xs) (dom m) in (Ok a, poke m a xs).

Record Optimizer : Type := MkOptimizer {
  obs_mat : ndarray2;
  obs : ndarray;
  obj_type : string;
  num_obs : nat;
  image_size : nat;
  obj_his : list pyfloat;
  err_his : list pyfloat
}.

Definition __init__ (obs_mat : ndarray2) (obs : ndarray) (obj_type : string)
  : Mem Optimizer :=
  mret {| obs_mat := obs_mat;
          obs := obs;
          obj_type := obj_type;
          num_obs := shape0 obs_mat;
          image_size := shape1 obs_mat;
          obj_his := [];
          err_his := [] |}.

Definition _soft_prox (self : Optimizer) (v : ndarray) (alpha : Q)
  : Mem ndarray :=
  a ← read v;
  let sign_v := np.sign a in
  a ← lift (np.inplace2 Qmult a sign_v);
  write v a;;
  o ← read (obs self);
  w ← new o;
  a ← read v;
  o ← read (obs self);
  r_index ← lift (np.broadcast2 Qgtb a (map (fun x => x + alpha) o));
  a ← read v;
  o ← read (obs self);
  l_index ← lift (np.broadcast2 Qltb a (map (fun x => x - alpha) o));
  a ← read v;
  vr ← lift (np.getmask a r_index);
  b ← read w;
  b ← lift (np.setmask b r_index (map (fun x => x - alpha) vr));
  write w b;;
  a ← read v;
  vl ← lift (np.getmask a l_index);
  b ← read w;
  b ← lift (np.setmask b l_index (map (fun x => x + alpha) vl));
  write w b;;
  b ← read w;
  b ← lift (np.inplace2 Qmult b sign_v);
  write w b;;
  mret w.

Definition _hard_prox (self : Optimizer) (v : ndarray) : Mem ndarray :=
  a ← read v;
  let sign_v := np.sign a in
  o ← read (obs self);
  w ← new o;
  b ← read w;
  b ← lift (np.inplace2 Qmult b sign_v);
  write w b;;
  mret w.

Definition objective (self : Optimizer) (x : ndarray) : Mem Q :=
  a ← read x;
  A ← read2 (obs_mat self);
  y ← lift (np.dot A a);
  o ← read (obs self);
  d ← lift (np.broadcast2 Qminus (np.abs y) o);
  mret (np.sum (np.abs d)).

(** The statement of the specification, at one call: after a call of
    the soft proximal operator the stored operator and the stored
    observations hold what they held. *)
Definition soft_prox_keeps_stored
    (self : Optimizer) (m : memory) (v : ndarray) (alpha : Q) : Prop :=
  let m' := (_soft_prox self v alpha m).2 in
  peek m' (obs self) = peek m (obs self) ∧
  Forall (fun row => peek m' row = peek m row) (rows (obs_mat self)).

(** A 2×2 operator [[-1, 0], [0, 1]] in cells 1 to 4 and the
    observations [1, 1] in cells 5 and 6. *)
Definition mem0 : memory :=
  list_to_map [(1%positive, - (1)); (2%positive, 0); (3%positive, 0);
               (4%positive, 1); (5%positive, 1); (6%positive, 1)].

Definition opt0 : Optimizer :=
  {| obs_mat := Ndarray2 2 2 [[1%positive; 2%positive];
                              [3%positive; 4%positive]];
     obs := [5%positive; 6%positive];
     obj_type := default_obj_type;
     num_obs := 2; image_size := 2; obj_his := []; err_his := [] |}.

(** The first column of the operator, [obs_mat[:, 0]]. *)
Definition column0 : ndarray := [1%positive; 3%positive].

End Views.

(** A caller's sequence of calls on one optimizer, in order, going on
    after a call that raises (as a caller that catches the exception
    does): the optimizer and the store it ends with. *)
Definition invoke_all (cs : list call) (self : Optimizer) (h : store)
  : Optimizer * store :=
  foldl (fun st c => let '(_, s, h') := invoke c st.1 st.2 in (s, h'))
        (self, h) cs.

(** One coordinate of [_soft_prox] as its statements compute it, one
    after the other, whatever the sign of [alpha]: the copy of the
    observation, the assignment under [r_index], then the assignment
    under [l_index], then the sign. *)
Definition soft_coord_in_order (alpha o v : Q) : Q :=
  let v' := Qabs v in
  let w := o in
  let w := if Qgtb v' (o + alpha) then v' - alpha else w in
  let w := if Qltb v' (o - alpha) then v' + alpha else w in
  w * Qsgn v.

(** No array of [h] is missing from [h'] or has another length there. *)
Definition arrays_persist (h h' : store) : Prop :=
  ∀ (l : loc) (a : list Q), h !! l = Some a →
    ∃ a', h' !! l = Some a' ∧ length a' = length a.

(** * Proofs *)

(** ** Scalar facts *)

Lemma Qltb_lt (x y : Q) : Qltb x y = true ↔ x < y.
Proof.
  unfold Qltb. rewrite negb_true_iff, <- not_true_iff_false, Qle_bool_iff.
  split; [apply Qnot_le_lt | apply Qlt_not_le].
Qed.

Lemma Qltb_ge (x y : Q) : Qltb x y = false ↔ y <= x.
Proof.
  unfold Qltb. rewrite negb_false_iff. apply Qle_bool_iff.
Qed.

Lemma Qgtb_gt (x y : Q) : Qgtb x y = true ↔ y < x.
Proof. apply Qltb_lt. Qed.

Lemma Qgtb_le (x y : Q) : Qgtb x y = false ↔ x <= y.
Proof. apply Qltb_ge. Qed.

(** [v * sign v] is [|v|], with the very same numerator and denominator. *)
Lemma Qmult_sgn_abs (x : Q) : x * Qsgn x = Qabs x.
Proof.
  destruct x as [n d]. unfold Qmult, Qsgn, Qabs; simpl.
  rewrite Pos.mul_1_r. f_equal. apply Z.sgn_abs.
Qed.

Lemma Qabs_nonneg_id (x : Q) : 0 <= x → Qabs x = x.
Proof.
  destruct x as [n d]. unfold Qle, Qabs; simpl. intros H.
  f_equal. apply Z.abs_eq. lia.
Qed.

Lemma Qsgn_pos (x : Q) : 0 < x → Qsgn x = 1.
Proof.
  destruct x as [n d]. unfold Qlt, Qsgn; simpl. intros H.
  rewrite Z.sgn_pos by lia. reflexivity.
Qed.

Lemma Qsgn_neg (x : Q) : x < 0 → Qsgn x = - (1).
Proof.
  destruct x as [n d]. unfold Qlt, Qsgn; simpl. intros H.
  rewrite Z.sgn_neg by lia. reflexivity.
Qed.

Lemma Qsgn_zero (x : Q) : x == 0 → Qsgn x = 0.
Proof.
  destruct x as [n d]. unfold Qeq, Qsgn; simpl. intros H.
  assert (n = 0%Z) as -> by lia. reflexivity.
Qed.

Lemma Qmult_comm_eq (x y : Q) : x * y = y * x.
Proof.
  destruct x, y. unfold Qmult; simpl.
  by rewrite Z.mul_comm, Pos.mul_comm.
Qed.

Lemma Qabs_mult_sgn (x : Q) : Qabs x * Qsgn x == x.
Proof.
  destruct (Q_dec x 0) as [[Hneg|Hpos]|Hz].
  - rewrite (Qsgn_neg x Hneg), Qabs_neg by lra. lra.
  - rewrite (Qsgn_pos x Hpos), Qabs_pos by lra. lra.
  - rewrite (Qsgn_zero x Hz). lra.
Qed.

Lemma soft_coord_zero (o x : Q) : soft_coord 0 o x == x.
Proof.
  unfold soft_coord.
  destruct (Qgtb (Qabs x) (o + 0)) eqn:Hr;
    [| apply Qgtb_le in Hr;
       destruct (Qltb (Qabs x) (o - 0)) eqn:Hl; [| apply Qltb_ge in Hl]].
  - setoid_replace (Qabs x - 0) with (Qabs x) using relation Qeq by lra.
    apply Qabs_mult_sgn.
  - setoid_replace (Qabs x + 0) with (Qabs x) using relation Qeq by lra.
    apply Qabs_mult_sgn.
  - setoid_replace o with (Qabs x) using relation Qeq by lra.
    apply Qabs_mult_sgn.
Qed.

Lemma soft_closed_zero (os vs : list Q) :
  length vs = length os → Forall2 Qeq (zip_with (soft_coord 0) os vs) vs.
Proof.
  revert vs. induction os as [|o os IH]; intros [|x vs]; simpl; try done.
  intros [= Hlen]. constructor; [apply soft_coord_zero | by apply IH].
Qed.

Lemma hard_coord_agrees (o x : Q) :
  x == hard_coord o x ↔ x == 0 ∨ Qabs x == o.
Proof.
  unfold hard_coord.
  destruct (Q_dec x 0) as [[Hneg|Hpos]|Hz].
  - rewrite (Qsgn_neg x Hneg), Qabs_neg by lra. split; [right|intros [|]]; lra.
  - rewrite (Qsgn_pos x Hpos), Qabs_pos by lra. split; [right|intros [|]]; lra.
  - rewrite (Qsgn_zero x Hz). split; [by left|]. intros _. lra.
Qed.

(** ** Running the monad *)

Lemma bind_run {A B} (m : M A) (k : A → M B) (h : store) :
  (m ≫= k) h = match m h with
               | (Ok a, h') => k a h'
               | (Raise e, h') => (Raise e, h')
               end.
Proof. reflexivity. Qed.

Lemma lift_run {A B} (r : result A) (k : A → M B) (h : store) :
  (lift r ≫= k) h = match r with
                    | Ok a => k a h
                    | Raise e => (Raise e, h)
                    end.
Proof. by destruct r. Qed.

Lemma load_ok (h : store) (l : loc) (a : list Q) :
  h !! l = Some a → load l h = (Ok a, h).
Proof. intros H. unfold load. by rewrite H. Qed.

Lemma store_at_ok (h : store) (l : loc) (a b : list Q) :
  h !! l = Some b → store_at l a h = (Ok tt, <[l := a]> h).
Proof. intros H. unfold store_at. by rewrite H. Qed.

Lemma fresh_None (h : store) : h !! fresh (dom h) = None.
Proof. apply not_elem_of_dom, is_fresh. Qed.

Lemma dom_overwrite (h : store) (l : loc) (a b : list Q) :
  h !! l = Some b → dom (<[l := a]> h) = dom h.
Proof.
  intros H%elem_of_dom_2. rewrite dom_insert_L.
  apply leibniz_equiv. apply subseteq_union_1. by apply singleton_subseteq_l.
Qed.

(** Stepping through a method body. *)
Ltac solve_lookup :=
  repeat (rewrite lookup_insert_ne by congruence);
  first [apply lookup_insert_eq | eassumption].

Ltac run_load := rewrite bind_run; erewrite load_ok by solve_lookup.
Ltac run_store :=
  rewrite bind_run; erewrite store_at_ok by solve_lookup;
  rewrite ?insert_insert_eq.
Ltac run_lift :=
  rewrite lift_run;
  match goal with
  | |- context [match ?r with Ok _ => _ | Raise _ => _ end] => destruct r
  end; [| by (eexists _, _; split; [reflexivity | intros ? [=]]) ].

(** ** Array facts *)

Lemma select_length (a : list Q) (mask : list bool) :
  length mask = length a → length (np.select a mask) = np.count_true mask.
Proof.
  revert mask. induction a as [|x a IH]; intros [|[] mask]; simpl; try done.
  - intros [= H]. unfold np.count_true. rewrite filter_cons_True by done.
    simpl. f_equal. by apply IH.
  - intros [= H]. unfold np.count_true. rewrite filter_cons_False by done.
    by apply IH.
Qed.

Lemma getmask_ok (a : list Q) (mask : list bool) :
  length mask = length a → np.getmask a mask = Ok (np.select a mask).
Proof. intros H. unfold np.getmask. by rewrite decide_True. Qed.

Lemma setmask_select_ok (f : Q → Q) (w a : list Q) (mask : list bool) :
  length mask = length w → length mask = length a →
  np.setmask w mask (map f (np.select a mask))
  = Ok (np.put w mask (map f (np.select a mask))).
Proof.
  intros Hw Ha. unfold np.setmask. rewrite decide_True by done.
  rewrite decide_True; [done|]. rewrite length_map. by apply select_length.
Qed.

Lemma put_length (w : list Q) (mask : list bool) (vals : list Q) :
  length (np.put w mask vals) = length w.
Proof.
  revert mask vals. induction w as [|x w IH]; intros [|[] mask] vals;
    simpl; try done.
  - destruct vals; simpl; by rewrite IH.
  - by rewrite IH.
Qed.

Lemma inplace2_ok (f : Q → Q → Q) (a b : list Q) :
  length b = length a → np.inplace2 f a b = Ok (zip_with f a b).
Proof. intros H. unfold np.inplace2. by rewrite decide_True. Qed.

Lemma broadcast2_ok {A B C} (f : A → B → C) (a : list A) (b : list B) :
  length a = length b → np.broadcast2 f a b = Ok (zip_with f a b).
Proof. intros H. unfold np.broadcast2. by rewrite decide_True. Qed.

Lemma mul_sign_abs (vs : list Q) : zip_with Qmult vs (np.sign vs) = np.abs vs.
Proof.
  induction vs as [|x vs IH]; simpl; [done|].
  by rewrite Qmult_sgn_abs, IH.
Qed.

Lemma abs_nonneg_id (os : list Q) : Forall (Qle 0) os → np.abs os = os.
Proof.
  induction 1 as [|x os Hx _ IH]; simpl; [done|].
  by rewrite Qabs_nonneg_id, IH.
Qed.

(** The masked assignments of [_soft_prox], coordinate by coordinate. *)
Lemma soft_pipeline (alpha : Q) (o vs : list Q) :
  0 <= alpha → length vs = length o →
  let a := np.abs vs in
  let r := zip_with Qgtb a (map (fun x => x + alpha) o) in
  let l := zip_with Qltb a (map (fun x => x - alpha) o) in
  zip_with Qmult
    (np.put (np.put o r (map (fun x => x - alpha) (np.select a r)))
            l (map (fun x => x + alpha) (np.select a l)))
    (np.sign vs)
  = zip_with (soft_coord alpha) o vs.
Proof.
  intros Halpha. revert vs.
  induction o as [|x o IH]; intros [|y vs]; simpl; try done.
  intros [= Hlen]. specialize (IH vs Hlen). simpl in IH.
  unfold soft_coord at 1.
  destruct (Qgtb (Qabs y) (x + alpha)) eqn:Hr;
    destruct (Qltb (Qabs y) (x - alpha)) eqn:Hl; simpl; rewrite ?IH; try done.
  apply Qgtb_gt in Hr. apply Qltb_lt in Hl. lra.
Qed.

(** ** What a call of [_soft_prox] does to the store *)

Section SoftProxRun.
Context (self : Optimizer) (h : store) (v : loc) (vs os : list Q).
Hypothesis Hv : h !! v = Some vs.
Hypothesis Ho : h !! obs self = Some os.

Lemma obs_after_abs :
  <[v := np.abs vs]> h !! obs self = Some (obs_as_read self v vs os).
Proof.
  unfold obs_as_read. destruct (decide (v = obs self)) as [<-|Hne].
  - apply lookup_insert_eq.
  - by rewrite lookup_insert_ne.
Qed.

(** Unless [v] is the stored array and holds a negative entry, the
    observations read are the stored ones. *)
Lemma obs_as_read_same :
  v ≠ obs self ∨ Forall (Qle 0) os → obs_as_read self v vs os = os.
Proof.
  unfold obs_as_read. intros Halias.
  destruct (decide (v = obs self)) as [Heq|Hne]; [|done].
  destruct Halias as [?|Hnn]; [done|].
  rewrite <- Heq, Hv in Ho. injection Ho as ->. by apply abs_nonneg_id.
Qed.

Lemma obs_as_read_length :
  length vs = length os → length (obs_as_read self v vs os) = length os.
Proof.
  unfold obs_as_read, np.abs. intros Hlen.
  destruct (decide _); [by rewrite length_map|done].
Qed.

Lemma soft_prox_run (alpha : Q) :
  length vs = length os → 0 <= alpha →
  _soft_prox self v alpha h
  = (Ok (fresh (dom h)),
     <[fresh (dom h) :=
         zip_with (soft_coord alpha) (obs_as_read self v vs os) vs]>
       (<[v := np.abs vs]> h)).
Proof.
  intros Hlen Halpha. unfold _soft_prox.
  pose proof obs_after_abs as Ho1.
  pose proof (obs_as_read_length Hlen) as Hlr.
  set (os' := obs_as_read self v vs os) in *.
  set (h1 := <[v := np.abs vs]> h) in *.
  assert (Hv1 : h1 !! v = Some (np.abs vs)) by apply lookup_insert_eq.
  assert (Hd : dom h1 = dom h) by (by eapply dom_overwrite).
  set (w := fresh (dom h)).
  assert (Hw : h1 !! w = None) by (subst w; rewrite <- Hd; apply fresh_None).
  assert (Hwv : w ≠ v) by congruence.
  assert (Hwo : w ≠ obs self) by congruence.
  assert (Hla : length (np.abs vs) = length os')
    by (unfold np.abs; rewrite length_map; congruence).
  run_load.
  rewrite lift_run, inplace2_ok, mul_sign_abs
    by (unfold np.sign; by rewrite length_map).
  rewrite bind_run, (store_at_ok _ _ _ _ Hv). fold h1.
  run_load.
  rewrite bind_run. unfold alloc at 1. rewrite Hd. fold w.
  run_load. run_load.
  rewrite lift_run, broadcast2_ok by (by rewrite length_map).
  run_load. run_load.
  rewrite lift_run, broadcast2_ok by (by rewrite length_map).
  set (r := zip_with Qgtb _ _). set (l := zip_with Qltb _ _).
  assert (Hr : length r = length os')
    by (subst r; rewrite length_zip_with, length_map; lia).
  assert (Hl : length l = length os')
    by (subst l; rewrite length_zip_with, length_map; lia).
  run_load. rewrite lift_run, getmask_ok by congruence.
  run_load. rewrite lift_run, setmask_select_ok by congruence.
  run_store.
  run_load. rewrite lift_run, getmask_ok by congruence.
  run_load.
  rewrite lift_run, setmask_select_ok by (rewrite ?put_length; congruence).
  run_store.
  run_load.
  rewrite lift_run, inplace2_ok
    by (unfold np.sign; rewrite !put_length, length_map; congruence).
  run_store.
  unfold mret, M_ret. do 2 f_equal.
  subst r l. apply soft_pipeline; [done|congruence].
Qed.

(** On every path, failing ones included, [_soft_prox] overwrites [v]
    with its absolute value and writes otherwise only to the array it
    allocates. *)
Lemma soft_prox_store (alpha : Q) :
  ∃ r b,
    _soft_prox self v alpha h
    = (r, <[fresh (dom h) := b]> (<[v := np.abs vs]> h)) ∧
    ∀ w, r = Ok w → w = fresh (dom h).
Proof.
  unfold _soft_prox.
  pose proof obs_after_abs as Ho1.
  set (os' := obs_as_read self v vs os) in *.
  set (h1 := <[v := np.abs vs]> h) in *.
  assert (Hv1 : h1 !! v = Some (np.abs vs)) by apply lookup_insert_eq.
  assert (Hd : dom h1 = dom h) by (by eapply dom_overwrite).
  set (w := fresh (dom h)).
  assert (Hw : h1 !! w = None) by (subst w; rewrite <- Hd; apply fresh_None).
  assert (Hwv : w ≠ v) by congruence.
  assert (Hwo : w ≠ obs self) by congruence.
  run_load.
  rewrite lift_run, inplace2_ok, mul_sign_abs
    by (unfold np.sign; by rewrite length_map).
  rewrite bind_run, (store_at_ok _ _ _ _ Hv). fold h1.
  run_load.
  rewrite bind_run. unfold alloc at 1. rewrite Hd. fold w.
  run_load. run_load. run_lift.
  run_load. run_load. run_lift.
  run_load. run_lift. run_load. run_lift. run_store.
  run_load. run_lift. run_load. run_lift. run_store.
  run_load. run_lift. run_store.
  eexists _, _. split; [reflexivity|]. by intros ? [= <-].
Qed.
End SoftProxRun.

(** ** What a call of [_hard_prox] does to the store *)

Lemma hard_prox_run (self : Optimizer) (h : store) (v : loc) (vs os : list Q) :
  h !! v = Some vs → h !! obs self = Some os → length vs = length os →
  _hard_prox self v h
  = (Ok (fresh (dom h)),
     <[fresh (dom h) := zip_with hard_coord os vs]> h).
Proof.
  intros Hv Ho Hlen. unfold _hard_prox.
  run_load. run_load.
  rewrite bind_run. unfold alloc at 1.
  set (w := fresh (dom h)).
  run_load.
  rewrite lift_run, inplace2_ok by (unfold np.sign; by rewrite length_map).
  run_store.
  unfold mret, M_ret. do 2 f_equal. clear. revert vs.
  induction os as [|o os IH]; intros [|x vs]; simpl; try done.
  unfold hard_coord at 1. by rewrite Qmult_comm_eq, IH.
Qed.

(** [_hard_prox] writes only to the array it allocates. *)
Lemma hard_prox_store
    (self : Optimizer) (h : store) (v : loc) (vs os : list Q) :
  h !! v = Some vs → h !! obs self = Some os →
  ∃ r b,
    _hard_prox self v h = (r, <[fresh (dom h) := b]> h) ∧
    ∀ w, r = Ok w → w = fresh (dom h).
Proof.
  intros Hv Ho. unfold _hard_prox.
  set (w := fresh (dom h)).
  run_load. run_load.
  rewrite bind_run. unfold alloc at 1. fold w.
  run_load. run_lift. run_store.
  eexists _, _. split; [reflexivity|]. by intros ? [= <-].
Qed.

(** ** What a call of [objective] computes and writes *)

Lemma zip_with_indexed {A B C} (f : A → B → C) (a : list A) (b : list B)
    (da : A) (db : B) (n : nat) :
  length a = n → length b = n →
  zip_with f a b = map (fun i => f (nth i a da) (nth i b db)) (seq 0 n).
Proof.
  intros Ha Hb. apply list_eq. intros i.
  rewrite lookup_zip_with, list_lookup_fmap.
  destruct (decide (i < n)%nat) as [Hi|Hi].
  - rewrite lookup_seq_lt by done. simpl.
    destruct (lookup_lt_is_Some_2 a i) as [x Hx]; [lia|].
    destruct (lookup_lt_is_Some_2 b i) as [y Hy]; [lia|].
    rewrite Hx, Hy. simpl.
    by rewrite (nth_lookup_Some _ _ _ _ Hx), (nth_lookup_Some _ _ _ _ Hy).
  - rewrite lookup_seq_ge by lia.
    rewrite (lookup_ge_None_2 a) by lia. done.
Qed.

Lemma objective_run (self : Optimizer) (h : store) (x : loc) (xs os : list Q) :
  h !! x = Some xs → h !! obs self = Some os →
  np.wf (obs_mat self) →
  length xs = np.shape1 (obs_mat self) →
  length os = np.shape0 (obs_mat self) →
  objective self x h = (Ok (objective_spec (obs_mat self) os xs), h).
Proof.
  intros Hx Ho [Hrows Hcols] Hlx Hlo. unfold objective.
  rewrite bind_run, (load_ok _ _ _ Hx).
  rewrite bind_run. unfold lift at 1, np.dot. rewrite decide_True by done.
  rewrite bind_run, (load_ok _ _ _ Ho).
  rewrite bind_run. unfold lift at 1.
  rewrite broadcast2_ok by (unfold np.abs; rewrite !length_map; congruence).
  unfold mret, M_ret. do 2 f_equal. unfold objective_spec, np.abs.
  rewrite (zip_with_indexed _ _ _ 0 0 (np.shape0 (obs_mat self)))
    by (rewrite ?length_map; congruence).
  rewrite map_map. f_equal. apply map_ext_in. intros i Hi.
  apply in_seq in Hi. do 2 f_equal.
  destruct (lookup_lt_is_Some_2 (np.rows (obs_mat self)) i) as [r Hr]; [lia|].
  assert (Hlr : length r = np.shape1 (obs_mat self))
    by exact (Forall_lookup_1 _ _ _ _ Hcols Hr).
  set (rs := map Qabs _).
  assert (Hrs : rs !! i = Some (Qabs (np.dotp r xs)))
    by (subst rs; rewrite !list_lookup_fmap, Hr; done).
  rewrite (nth_lookup_Some _ _ _ _ Hrs), (nth_lookup_Some _ _ _ _ Hr).
  f_equal. unfold np.dotp. f_equal.
  by apply zip_with_indexed.
Qed.

(** [objective] writes nothing. *)
Lemma objective_store (self : Optimizer) (h : store) (x : loc) :
  (objective self x h).2 = h.
Proof.
  unfold objective. rewrite bind_run. unfold load at 1.
  destruct (h !! x); [|done].
  rewrite bind_run. unfold lift at 1.
  destruct (np.dot _ _); [|done].
  rewrite bind_run. unfold load at 1.
  destruct (h !! obs self); [|done].
  rewrite bind_run. unfold lift at 1.
  by destruct (np.broadcast2 _ _ _).
Qed.

(** ** The optimizer after a call *)

Lemma record_all_lengths (self : Optimizer)
    (args : list (option pyfloat * option pyfloat)) :
  length (obj_his (record_all self args))
  = (length (obj_his self) + length args)%nat ∧
  length (err_his (record_all self args))
  = (length (err_his self) + length args)%nat.
Proof.
  revert self. induction args as [|a args IH]; intros self.
  - simpl. lia.
  - unfold record_all in *. simpl foldl.
    destruct (IH (record_solver_info self a.1 a.2)) as [-> ->].
    simpl. rewrite !length_app. simpl. lia.
Qed.

Lemma invoke_histories (c : call) (self : Optimizer) (h : store) :
  (invoke c self h).1.2 = self ∨
  (invoke c self h).1.2 = reset_solver_info self ∨
  ∃ obj err, (invoke c self h).1.2 = record_solver_info self obj err.
Proof.
  destruct c; simpl; eauto.
  all: left; match goal with |- context [returning ?f ?m ?s] =>
         by destruct (returning f m s) end.
Qed.


Lemma invoke_self (c : call) (self : Optimizer) (h : store) :
  match c with
  | call_reset_solver_info | call_record_solver_info _ _ => True
  | _ => (invoke c self h).1.2 = self
  end.
Proof.
  destruct c; simpl; try done.
  all: match goal with |- context [returning ?f ?m ?s] =>
         by destruct (returning f m s) end.
Qed.

(** * Properties *)

(** ** The scenario of the specification *)

Example scenario_init :
  __init__ Scenario.eye2 Scenario.l_obs "soft" (Scenario.mem [5; 5] [3; 4])
  = (Ok Scenario.opt, Scenario.mem [5; 5] [3; 4]).
Proof. reflexivity. Qed.

Example scenario_soft_prox :
  _soft_prox Scenario.opt Scenario.l_v 1 (Scenario.mem [5; 5] [3; 4])
  = (Ok 4%positive,
     <[4%positive := [4; 4]]> (Scenario.mem [5; 5] [3; 4])).
Proof. vm_compute. reflexivity. Qed.

Example scenario_hard_prox :
  _hard_prox Scenario.opt Scenario.l_v (Scenario.mem [-5; 5] [3; 4])
  = (Ok 4%positive,
     <[4%positive := [-3; 4]]> (Scenario.mem [-5; 5] [3; 4])).
Proof. vm_compute. reflexivity. Qed.

(** The soft proximal operator overwrites a negative entry of its
    argument; the hard one does not. *)
Example scenario_soft_prox_overwrites :
  _soft_prox Scenario.opt Scenario.l_v 1 (Scenario.mem [-5; 5] [3; 4])
  = (Ok 4%positive,
     <[4%positive := [-4; 4]]> (Scenario.mem [5; 5] [3; 4])).
Proof. vm_compute. reflexivity. Qed.

(** ** C1: the soft proximal operator *)

(** C1. For a reference vector [v] and observations of length [num_obs]
    and [alpha > 0], [_soft_prox] returns a fresh array holding, at each
    coordinate, with [s = sign v] and [v' = |v|]: [v' - alpha] where
    [v' > obs + alpha], [v' + alpha] where [v' < obs - alpha], the
    observation otherwise, each multiplied by [s].  Where
    [v' == obs + alpha] exactly the flat branch is taken: the output is
    the observation times [s], so the observation itself for positive
    [v] (and its opposite for negative [v]).  The observations are the
    stored ones as the call copies them, [os'];
    they are the stored ones of before the call, [os], unless [v] is the
    stored array itself and holds a negative entry. *)
Theorem soft_prox_closed_form
    (self : Optimizer) (h : store) (v : loc) (vs os : list Q) (alpha : Q) :
  h !! v = Some vs →
  h !! obs self = Some os →
  length os = num_obs self →
  length vs = num_obs self →
  0 < alpha →
  ∃ (w : loc) (ws : list Q) (h' : store) (os' : list Q),
    _soft_prox self v alpha h = (Ok w, h') ∧
    h' !! w = Some ws ∧
    h' !! obs self = Some os' ∧
    (v ≠ obs self ∨ Forall (Qle 0) os → os' = os) ∧
    ws = zip_with (soft_coord alpha) os' vs ∧
    length ws = num_obs self ∧
    ∀ (i : nat) (o x : Q), os' !! i = Some o → vs !! i = Some x →
      (o + alpha < Qabs x → ws !! i = Some ((Qabs x - alpha) * Qsgn x)) ∧
      (Qabs x < o - alpha → ws !! i = Some ((Qabs x + alpha) * Qsgn x)) ∧
      (o - alpha <= Qabs x ∧ Qabs x <= o + alpha →
         ws !! i = Some (o * Qsgn x)) ∧
      (Qabs x == o + alpha → ws !! i = Some (o * Qsgn x)) ∧
      (Qabs x == o + alpha → 0 < x →
         ∃ y, ws !! i = Some y ∧ y == o).
Proof.
  intros Hv Ho Hlo Hlv Halpha.
  assert (Hlen : length vs = length os) by congruence.
  pose proof (obs_after_abs self h v vs os Ho) as Ho1.
  pose proof (obs_as_read_length self v vs os Hlen) as Hlr.
  assert (Hw : h !! fresh (dom h) = None) by apply fresh_None.
  exists (fresh (dom h)), (zip_with (soft_coord alpha)
                             (obs_as_read self v vs os) vs).
  eexists _, (obs_as_read self v vs os).
  split; [|split; [|split; [|split; [|split; [reflexivity|split]]]]].
  - apply (soft_prox_run self h v vs os Hv Ho alpha Hlen). lra.
  - apply lookup_insert_eq.
  - rewrite lookup_insert_ne by congruence. exact Ho1.
  - exact (obs_as_read_same self h v vs os Hv Ho).
  - rewrite length_zip_with. lia.
  - intros i o x Hio Hix.
    assert (Hi : zip_with (soft_coord alpha) (obs_as_read self v vs os) vs
                   !! i = Some (soft_coord alpha o x))
      by (rewrite lookup_zip_with, Hio, Hix; done).
    rewrite Hi. unfold soft_coord.
    destruct (Qgtb (Qabs x) (o + alpha)) eqn:Hr;
      [apply Qgtb_gt in Hr | apply Qgtb_le in Hr];
      (destruct (Qltb (Qabs x) (o - alpha)) eqn:Hl;
         [apply Qltb_lt in Hl | apply Qltb_ge in Hl]).
    all: repeat split; intros; try done; try lra.
    eexists; split; [done|]. rewrite Qsgn_pos by done. lra.
Qed.

Lemma soft_prox_closed_form_witness :
  ∃ (w : loc) (ws : list Q) (h' : store) (os' : list Q),
    _soft_prox Scenario.opt Scenario.l_v 1 (Scenario.mem [5; 5] [3; 4])
    = (Ok w, h') ∧
    h' !! w = Some ws ∧
    h' !! obs Scenario.opt = Some os' ∧
    (Scenario.l_v ≠ obs Scenario.opt ∨ Forall (Qle 0) [3; 4] →
     os' = [3; 4]) ∧
    ws = zip_with (soft_coord 1) os' [5; 5] ∧
    length ws = num_obs Scenario.opt ∧
    ∀ (i : nat) (o x : Q),
      os' !! i = Some o → ([5; 5] : list Q) !! i = Some x →
      (o + 1 < Qabs x → ws !! i = Some ((Qabs x - 1) * Qsgn x)) ∧
      (Qabs x < o - 1 → ws !! i = Some ((Qabs x + 1) * Qsgn x)) ∧
      (o - 1 <= Qabs x ∧ Qabs x <= o + 1 → ws !! i = Some (o * Qsgn x)) ∧
      (Qabs x == o + 1 → ws !! i = Some (o * Qsgn x)) ∧
      (Qabs x == o + 1 → 0 < x → ∃ y, ws !! i = Some y ∧ y == o).
Proof.
  apply (soft_prox_closed_form Scenario.opt (Scenario.mem [5; 5] [3; 4])
           Scenario.l_v [5; 5] [3; 4] 1).
  - reflexivity.
  - reflexivity.
  - reflexivity.
  - reflexivity.
  - reflexivity.
Defined.

(** ** C2: the hard proximal operator *)

(** C2. For a reference vector [v] and observations of length [num_obs],
    [_hard_prox] returns a fresh array holding [sign v · obs] at each
    coordinate.  So where [v] is zero the output is zero, and, when the
    observations are non-negative, the magnitude of the output is the
    observation wherever [v] is not zero. *)
Theorem hard_prox_closed_form
    (self : Optimizer) (h : store) (v : loc) (vs os : list Q) :
  h !! v = Some vs →
  h !! obs self = Some os →
  length os = num_obs self →
  length vs = num_obs self →
  ∃ (w : loc) (ws : list Q) (h' : store),
    _hard_prox self v h = (Ok w, h') ∧
    h' !! w = Some ws ∧
    ws = zip_with hard_coord os vs ∧
    length ws = num_obs self ∧
    ∀ (i : nat) (o x : Q), os !! i = Some o → vs !! i = Some x →
      ws !! i = Some (Qsgn x * o) ∧
      (x == 0 → ∃ y, ws !! i = Some y ∧ y == 0) ∧
      (Forall (Qle 0) os → ¬ x == 0 →
         ∃ y, ws !! i = Some y ∧ Qabs y = o).
Proof.
  intros Hv Ho Hlo Hlv.
  assert (Hlen : length vs = length os) by congruence.
  eexists _, _, _. split; [|split; [|split; [reflexivity|split]]].
  - by apply (hard_prox_run self h v vs os).
  - apply lookup_insert_eq.
  - rewrite length_zip_with. lia.
  - intros i o x Hio Hix.
    assert (Hi : zip_with hard_coord os vs !! i = Some (Qsgn x * o))
      by (rewrite lookup_zip_with, Hio, Hix; done).
    rewrite Hi. split; [done|]. split.
    + intros Hx. eexists; split; [done|].
      rewrite (Qsgn_zero x Hx). lra.
    + intros Hnn Hx. eexists; split; [done|].
      assert (Hpos : 0 <= o) by exact (Forall_lookup_1 _ _ _ _ Hnn Hio).
      destruct (Q_dec x 0) as [[Hneg|Hgt]|Heq]; [| |done].
      * rewrite (Qsgn_neg x Hneg). destruct o as [n d].
        unfold Qle in Hpos. unfold Qabs, Qmult; simpl in *.
        f_equal. lia.
      * rewrite (Qsgn_pos x Hgt). destruct o as [n d].
        unfold Qle in Hpos. unfold Qabs, Qmult; simpl in *.
        f_equal. destruct n; simpl; lia.
Qed.

Lemma hard_prox_closed_form_witness :
  ∃ (w : loc) (ws : list Q) (h' : store),
    _hard_prox Scenario.opt Scenario.l_v (Scenario.mem [-5; 5] [3; 4])
    = (Ok w, h') ∧
    h' !! w = Some ws ∧
    ws = zip_with hard_coord [3; 4] [-5; 5] ∧
    length ws = num_obs Scenario.opt ∧
    ∀ (i : nat) (o x : Q),
      ([3; 4] : list Q) !! i = Some o → ([-5; 5] : list Q) !! i = Some x →
      ws !! i = Some (Qsgn x * o) ∧
      (x == 0 → ∃ y, ws !! i = Some y ∧ y == 0) ∧
      (Forall (Qle 0) [3; 4] → ¬ x == 0 →
         ∃ y, ws !! i = Some y ∧ Qabs y = o).
Proof.
  apply (hard_prox_closed_form Scenario.opt (Scenario.mem [-5; 5] [3; 4])
           Scenario.l_v [-5; 5] [3; 4]).
  - reflexivity.
  - reflexivity.
  - reflexivity.
  - reflexivity.
Defined.

(** ** C3: the objective *)

(** C3. For a candidate [x] of length [image_size], [objective] returns
    the sum over the observations of [| |(A · x)_i| - obs_i |] and leaves
    the store as it was; with the 2×2 identity and observations [3, 4] it
    is 0 at [3, 4] and 7 at [0, 0]. *)
Theorem objective_closed_form :
  (∀ (self : Optimizer) (h : store) (x : loc) (xs os : list Q),
     h !! x = Some xs →
     h !! obs self = Some os →
     np.wf (obs_mat self) →
     num_obs self = np.shape0 (obs_mat self) →
     image_size self = np.shape1 (obs_mat self) →
     length os = num_obs self →
     length xs = image_size self →
     objective self x h = (Ok (objective_spec (obs_mat self) os xs), h)) ∧
  (∃ q, objective Scenario.opt Scenario.l_x (Scenario.mem [5; 5] [3; 4])
        = (Ok q, Scenario.mem [5; 5] [3; 4]) ∧ q == 0) ∧
  (∃ q, objective Scenario.opt Scenario.l_x (Scenario.mem [5; 5] [0; 0])
        = (Ok q, Scenario.mem [5; 5] [0; 0]) ∧ q == 7).
Proof.
  split; [|split].
  - intros self h x xs os Hx Ho Hwf Hn Hm Hlo Hlx.
    apply objective_run; congruence.
  - eexists. split; [vm_compute; reflexivity|]. reflexivity.
  - eexists. split; [vm_compute; reflexivity|]. reflexivity.
Qed.

Lemma objective_closed_form_witness :
  objective Scenario.opt Scenario.l_x (Scenario.mem [5; 5] [0; 0])
  = (Ok (objective_spec Scenario.eye2 [3; 4] [0; 0]),
     Scenario.mem [5; 5] [0; 0])
  ∧ objective_spec Scenario.eye2 [3; 4] [0; 0] == 7.
Proof.
  split.
  - apply (proj1 objective_closed_form Scenario.opt
             (Scenario.mem [5; 5] [0; 0]) Scenario.l_x [0; 0] [3; 4]).
    + reflexivity.
    + reflexivity.
    + split; [reflexivity|]. repeat constructor.
    + reflexivity.
    + reflexivity.
    + reflexivity.
    + reflexivity.
  - reflexivity.
Defined.

(** ** C4: the soft proximal operator at [alpha = 0] *)

(** With observations [3, 4] and [v = [5, 5]], the soft proximal operator
    at [alpha = 0] returns [5, 5], the hard one [3, 4]. *)
Lemma soft_prox_at_zero_counterexample :
  Scenario.mem [5; 5] [3; 4] !! Scenario.l_v = Some [5; 5] ∧
  Scenario.mem [5; 5] [3; 4] !! obs Scenario.opt = Some [3; 4] ∧
  _soft_prox Scenario.opt Scenario.l_v 0 (Scenario.mem [5; 5] [3; 4])
  = (Ok 4%positive, <[4%positive := [5; 5]]> (Scenario.mem [5; 5] [3; 4])) ∧
  _hard_prox Scenario.opt Scenario.l_v (Scenario.mem [5; 5] [3; 4])
  = (Ok 4%positive, <[4%positive := [3; 4]]> (Scenario.mem [5; 5] [3; 4])) ∧
  ¬ soft_prox_at_zero_is_hard Scenario.opt (Scenario.mem [5; 5] [3; 4])
      Scenario.l_v [5; 5] [3; 4].
Proof.
  assert (Hc : _soft_prox Scenario.opt Scenario.l_v 0
                 (Scenario.mem [5; 5] [3; 4])
               = (Ok 4%positive,
                  <[4%positive := [5; 5]]> (Scenario.mem [5; 5] [3; 4])))
    by (vm_compute; reflexivity).
  split; [reflexivity|]. split; [reflexivity|]. split; [exact Hc|].
  split; [vm_compute; reflexivity|].
  intros (w & ws & h' & Hrun & Hw & Heq).
  rewrite Hc in Hrun. injection Hrun as <- <-.
  rewrite lookup_insert_eq in Hw. injection Hw as <-.
  apply Forall2_cons_1 in Heq as [H53 _]. vm_compute in H53. discriminate.
Qed.

(** C4, amended. For a reference vector [v] and observations of length
    [num_obs], [_soft_prox] with [alpha = 0] returns [v] itself
    ([sign v · |v|]) at every coordinate; it agrees with the hard
    proximal operator's [sign v · obs] exactly at the coordinates where
    [v] is zero or [|v|] equals the observation. *)
Theorem soft_prox_at_zero
    (self : Optimizer) (h : store) (v : loc) (vs os : list Q) :
  h !! v = Some vs →
  h !! obs self = Some os →
  length os = num_obs self →
  length vs = num_obs self →
  ∃ (w : loc) (ws : list Q) (h' : store),
    _soft_prox self v 0 h = (Ok w, h') ∧
    h' !! w = Some ws ∧
    length ws = num_obs self ∧
    Forall2 Qeq ws vs ∧
    ∀ (i : nat) (o x y : Q),
      os !! i = Some o → vs !! i = Some x → ws !! i = Some y →
      y == x ∧ (y == hard_coord o x ↔ x == 0 ∨ Qabs x == o).
Proof.
  intros Hv Ho Hlo Hlv.
  assert (Hlen : length vs = length os) by congruence.
  pose proof (obs_as_read_length self v vs os Hlen) as Hlr.
  eexists _, _, _. split; [|split; [|split; [|split]]].
  - apply (soft_prox_run self h v vs os Hv Ho 0 Hlen). lra.
  - apply lookup_insert_eq.
  - rewrite length_zip_with. lia.
  - apply soft_closed_zero. congruence.
  - intros i o x y Hio Hix Hiy.
    apply lookup_zip_with_Some in Hiy as (o' & x' & -> & _ & Hix').
    rewrite Hix in Hix'. injection Hix' as <-.
    split; [apply soft_coord_zero|].
    rewrite soft_coord_zero. apply hard_coord_agrees.
Qed.

Lemma soft_prox_at_zero_witness :
  ∃ (w : loc) (ws : list Q) (h' : store),
    _soft_prox Scenario.opt Scenario.l_v 0 (Scenario.mem [5; 5] [3; 4])
    = (Ok w, h') ∧
    h' !! w = Some ws ∧
    length ws = num_obs Scenario.opt ∧
    Forall2 Qeq ws [5; 5] ∧
    ∀ (i : nat) (o x y : Q),
      ([3; 4] : list Q) !! i = Some o → ([5; 5] : list Q) !! i = Some x →
      ws !! i = Some y →
      y == x ∧ (y == hard_coord o x ↔ x == 0 ∨ Qabs x == o).
Proof.
  apply (soft_prox_at_zero Scenario.opt (Scenario.mem [5; 5] [3; 4])
           Scenario.l_v [5; 5] [3; 4]).
  - reflexivity.
  - reflexivity.
  - reflexivity.
  - reflexivity.
Defined.

(** ** C5: construction *)

(** A 2×2 operator is accepted with a single observation. *)
Lemma init_mismatch_counterexample :
  Mismatch.mem [3] [3; 4] !! Scenario.l_obs = Some [3] ∧
  length ([3] : list Q) ≠ np.shape0 Scenario.eye2 ∧
  __init__ Scenario.eye2 Scenario.l_obs "soft" (Mismatch.mem [3] [3; 4])
  = (Ok {| obs_mat := Scenario.eye2; obs := Scenario.l_obs;
           obj_type := "soft"; num_obs := 2; image_size := 2;
           obj_his := []; err_his := [] |},
     Mismatch.mem [3] [3; 4])
  ∧ ¬ init_rejects_mismatch Scenario.eye2 Scenario.l_obs [3] "soft"
        (Mismatch.mem [3] [3; 4]).
Proof.
  split; [reflexivity|]. split; [simpl; lia|]. split; [reflexivity|].
  intros H. destruct H as (e & He & _); [reflexivity|simpl; lia|].
  discriminate He.
Qed.

(** Nothing checks the lengths later either: a single observation is
    broadcast by [objective]; three make it raise, but only when it is
    called. *)
Example mismatch_broadcast :
  ∃ self q,
    __init__ Scenario.eye2 Scenario.l_obs "soft" (Mismatch.mem [3] [3; 4])
    = (Ok self, Mismatch.mem [3] [3; 4]) ∧
    objective self Scenario.l_x (Mismatch.mem [3] [3; 4])
    = (Ok q, Mismatch.mem [3] [3; 4]) ∧ q == 1.
Proof.
  eexists _, _. split; [reflexivity|]. split; [vm_compute|]; reflexivity.
Qed.

Example mismatch_deferred :
  ∃ self,
    __init__ Scenario.eye2 Scenario.l_obs "soft"
      (Mismatch.mem [3; 4; 5] [3; 4])
    = (Ok self, Mismatch.mem [3; 4; 5] [3; 4]) ∧
    objective self Scenario.l_x (Mismatch.mem [3; 4; 5] [3; 4])
    = (Raise ValueError, Mismatch.mem [3; 4; 5] [3; 4]).
Proof. eexists. split; [reflexivity|]. vm_compute. reflexivity. Qed.

(** C5, amended. Construction never fails and checks no shape: for every
    operator, every observation array (of any length) and every
    objective type, [__init__] returns an optimizer that stores the three
    as given, takes [num_obs] and [image_size] from the operator alone
    and starts with empty histories; the store is not touched. *)
Theorem init_succeeds
    (A : np.ndarray2) (l : loc) (t : string) (h : store) :
  ∃ self : Optimizer,
    __init__ A l t h = (Ok self, h) ∧
    obs_mat self = A ∧ obs self = l ∧ obj_type self = t ∧
    num_obs self = np.shape0 A ∧ image_size self = np.shape1 A ∧
    obj_his self = [] ∧ err_his self = [].
Proof. eexists. repeat split. Qed.

(** ** C6: recording the history *)

(** C6. A call of [record_solver_info] appends exactly one entry to each
    history: NaN for an omitted argument, the argument itself otherwise;
    nothing else of the optimizer changes. *)
Theorem record_solver_info_appends
    (self : Optimizer) (obj err : option pyfloat) :
  let self' := record_solver_info self obj err in
  obj_his self' = obj_his self ++ [default NaN obj] ∧
  err_his self' = err_his self ++ [default NaN err] ∧
  length (obj_his self') = S (length (obj_his self)) ∧
  length (err_his self') = S (length (err_his self)) ∧
  obj_his (record_solver_info self None err) = obj_his self ++ [NaN] ∧
  err_his (record_solver_info self obj None) = err_his self ++ [NaN] ∧
  (∀ x, obj_his (record_solver_info self (Some x) err)
        = obj_his self ++ [x]) ∧
  (∀ y, err_his (record_solver_info self obj (Some y))
        = err_his self ++ [y]) ∧
  obs_mat self' = obs_mat self ∧ obs self' = obs self ∧
  obj_type self' = obj_type self ∧ num_obs self' = num_obs self ∧
  image_size self' = image_size self ∧
  ∀ h : store,
    invoke (call_record_solver_info obj err) self h = (Ok PyNone, self', h).
Proof.
  simpl. repeat split.
  - rewrite length_app. simpl. lia.
  - rewrite length_app. simpl. lia.
Qed.

(** ** C7: resetting the history; index alignment *)

(** C7. [reset_solver_info] empties both histories; [n] calls of
    [record_solver_info] after it leave both with exactly [n] entries;
    the histories have equal lengths after construction, and every call
    on the optimizer keeps them so. *)
Theorem history_aligned :
  (∀ self : Optimizer,
     obj_his (reset_solver_info self) = [] ∧
     err_his (reset_solver_info self) = []) ∧
  (∀ (self : Optimizer) (args : list (option pyfloat * option pyfloat)),
     let self' := record_all (reset_solver_info self) args in
     length (obj_his self') = length args ∧
     length (err_his self') = length args) ∧
  (∀ (A : np.ndarray2) (l : loc) (t : string) (h h' : store)
     (self : Optimizer),
     __init__ A l t h = (Ok self, h') → aligned self) ∧
  (∀ (c : call) (self : Optimizer) (h : store),
     aligned self → aligned (invoke c self h).1.2).
Proof.
  split; [|split; [|split]].
  - done.
  - intros self args. simpl.
    destruct (record_all_lengths (reset_solver_info self) args) as [-> ->].
    done.
  - intros A l t h h' self [= <- _]. reflexivity.
  - intros c self h Hal.
    destruct (invoke_histories c self h) as [->|[->|(obj & err & ->)]].
    + done.
    + reflexivity.
    + unfold aligned in *. simpl. rewrite !length_app. simpl. lia.
Qed.

Lemma history_aligned_witness :
  aligned (record_solver_info Scenario.opt (Some (Fin 7)) None) ∧
  aligned (invoke (call_record_solver_info None (Some (Fin 1)))
             (record_solver_info Scenario.opt (Some (Fin 7)) None)
             (Scenario.mem [5; 5] [3; 4])).1.2.
Proof.
  split; [reflexivity|].
  apply (proj2 (proj2 (proj2 history_aligned))). reflexivity.
Defined.

(** ** C8: what the proximal operators and the objective leave untouched *)

Module ViewsFacts.
Import Views.

Lemma mem_bind_run {A B} (c : Mem A) (k : A → Mem B) (m : memory) :
  (c ≫= k) m = match c m with
               | (Ok a, m') => k a m'
               | (Raise e, m') => (Raise e, m')
               end.
Proof. reflexivity. Qed.

Lemma mem_lift_run {A B} (r : result A) (k : A → Mem B) (m : memory) :
  (lift r ≫= k) m = match r with
                    | Ok a => k a m
                    | Raise e => (Raise e, m)
                    end.
Proof. by destruct r. Qed.

Lemma read_run {B} (a : ndarray) (k : list Q → Mem B) (m : memory) :
  (read a ≫= k) m = match peek m a with
                    | Some xs => k xs m
                    | None => (Raise InvalidRef, m)
                    end.
Proof. rewrite mem_bind_run. unfold read. by destruct (peek m a). Qed.

Lemma write_run {B} (a : ndarray) (xs : list Q) (k : unit → Mem B)
    (m : memory) :
  (write a xs ≫= k) m = k tt (poke m a xs).
Proof. reflexivity. Qed.

Lemma new_run {B} (xs : list Q) (k : ndarray → Mem B) (m : memory) :
  (new xs ≫= k) m
  = k (fresh_list (length xs) (dom m))
      (poke m (fresh_list (length xs) (dom m)) xs).
Proof. reflexivity. Qed.

(** *** Writing through an array *)

Lemma poke_cons (m : memory) (p : addr) (a : ndarray) (x : Q) (xs : list Q) :
  poke m (p :: a) (x :: xs) = poke (<[p := x]> m) a xs.
Proof. reflexivity. Qed.

Lemma poke_notin (m : memory) (a : ndarray) (xs : list Q) (p : addr) :
  p ∉ a → poke m a xs !! p = m !! p.
Proof.
  revert m xs. induction a as [|q a IH]; intros m [|x xs] Hp; try done.
  rewrite poke_cons, IH by set_solver.
  apply lookup_insert_ne. set_solver.
Qed.

Lemma poke_dom (m : memory) (a : ndarray) (xs : list Q) (p : addr) :
  p ∈ dom m → p ∈ dom (poke m a xs).
Proof.
  revert m xs. induction a as [|q a IH]; intros m [|x xs] Hp; try done.
  rewrite poke_cons. apply IH. rewrite dom_insert. set_solver.
Qed.

(** Writing to every cell a value that depends on the cell alone. *)
Lemma poke_fun (g : addr → Q) (m : memory) (a : ndarray) (xs : list Q)
    (p : addr) :
  Forall2 (fun q x => x = g q) a xs →
  poke m a xs !! p = if decide (p ∈ a) then Some (g p) else m !! p.
Proof.
  intros H. revert m. induction H as [|q x a xs -> _ IH]; intros m.
  - rewrite decide_False; [done|]. apply not_elem_of_nil.
  - rewrite poke_cons, IH.
    destruct (decide (p ∈ a)) as [Hin|Hnin].
    + rewrite decide_True by done.
      rewrite decide_True; [done|]. apply elem_of_cons. by right.
    + rewrite decide_False by done.
      destruct (decide (p = q)) as [->|Hne].
      * rewrite decide_True by (apply elem_of_cons; by left).
        apply lookup_insert_eq.
      * rewrite decide_False by (rewrite elem_of_cons; intros [|]; done).
        by apply lookup_insert_ne.
Qed.

(** [v *= sign_v] leaves in each cell of [v] the absolute value of what
    it held, and touches no other cell. *)
Lemma poke_abs (m : memory) (v : ndarray) (vs : list Q) (p : addr) :
  peek m v = Some vs →
  poke m v (np.abs vs) !! p
  = if decide (p ∈ v) then Qabs <$> m !! p else m !! p.
Proof.
  intros Hv. apply mapM_Some_1 in Hv.
  rewrite (poke_fun (fun q => Qabs (default 0 (m !! q)))).
  - destruct (decide (p ∈ v)) as [Hin|]; [|done].
    apply list_elem_of_lookup in Hin as [i Hi].
    destruct (Forall2_lookup_l _ _ _ _ _ Hv Hi) as (x & _ & ->). done.
  - unfold np.abs. clear p. induction Hv as [|q x v vs Hq _ IH]; simpl;
      constructor; [by rewrite Hq|exact IH].
Qed.

Lemma peek_cons (m : memory) (p : addr) (a : ndarray) :
  peek m (p :: a) = x ← m !! p; xs ← peek m a; Some (x :: xs).
Proof. reflexivity. Qed.

Lemma peek_same (m m' : memory) (a : ndarray) :
  (∀ p, p ∈ a → m' !! p = m !! p) → peek m' a = peek m a.
Proof.
  intros H. induction a as [|p a IH]; [done|].
  rewrite !peek_cons, H, IH by set_solver. done.
Qed.

(** *** The memory after a call *)

Ltac mem_close Hfresh :=
  eexists _, _; split; [reflexivity|]; split;
  [ intros ? ?; rewrite ?poke_notin by auto; reflexivity
  | let Heq := fresh in
    intros ? Heq; try discriminate Heq; injection Heq as <-;
    intros ? ? ?; eapply Hfresh; eassumption ].

Ltac mem_read Hfresh :=
  rewrite read_run;
  match goal with
  | |- context [match peek ?m ?a with _ => _ end] => destruct (peek m a)
  end; [| by mem_close Hfresh].

Ltac mem_lift Hfresh :=
  rewrite mem_lift_run;
  match goal with
  | |- context [match ?r with Ok _ => _ | Raise _ => _ end] => destruct r
  end; [| by mem_close Hfresh].

(** On every path, failing ones included, [_soft_prox] leaves the
    memory that was in use as [v *= sign_v] left it, and returns an
    array over cells that were not in use. *)
Lemma soft_prox_memory
    (self : Optimizer) (m : memory) (v : ndarray) (vs : list Q) (alpha : Q) :
  peek m v = Some vs →
  ∃ (r : result ndarray) (m' : memory),
    _soft_prox self v alpha m = (r, m') ∧
    (∀ p, p ∈ dom m → m' !! p = poke m v (np.abs vs) !! p) ∧
    (∀ w, r = Ok w → ∀ p, p ∈ w → p ∉ dom m).
Proof.
  intros Hv. unfold _soft_prox.
  rewrite read_run, Hv.
  rewrite mem_lift_run, inplace2_ok, mul_sign_abs
    by (unfold np.sign; by rewrite length_map).
  rewrite write_run. set (m1 := poke m v (np.abs vs)).
  rewrite read_run. destruct (peek m1 (obs self)) as [o|].
  2:{ eexists _, _. split; [reflexivity|]. split; [done|]. by intros ? [=]. }
  rewrite new_run. set (w := fresh_list (length o) (dom m1)).
  assert (Hfresh : ∀ p, p ∈ dom m → p ∉ w).
  { intros p Hp Hw. apply fresh_list_is_fresh in Hw.
    apply Hw. by apply poke_dom. }
  mem_read Hfresh. mem_read Hfresh. mem_lift Hfresh.
  mem_read Hfresh. mem_read Hfresh. mem_lift Hfresh.
  mem_read Hfresh. mem_lift Hfresh. mem_read Hfresh. mem_lift Hfresh.
  rewrite write_run.
  mem_read Hfresh. mem_lift Hfresh. mem_read Hfresh. mem_lift Hfresh.
  rewrite write_run.
  mem_read Hfresh. mem_lift Hfresh.
  rewrite write_run.
  mem_close Hfresh.
Qed.

(** [_hard_prox] leaves the memory that was in use as it was. *)
Lemma hard_prox_memory (self : Optimizer) (m : memory) (v : ndarray) :
  ∃ (r : result ndarray) (m' : memory),
    _hard_prox self v m = (r, m') ∧
    (∀ p, p ∈ dom m → m' !! p = m !! p) ∧
    (∀ w, r = Ok w → ∀ p, p ∈ w → p ∉ dom m).
Proof.
  unfold _hard_prox.
  assert (Hnone : ∀ p : addr, p ∈ dom m → p ∉ ([] : ndarray))
    by (intros; set_solver).
  mem_read Hnone. mem_read Hnone.
  rewrite new_run.
  match goal with |- context [fresh_list ?n (dom m)] =>
    set (w := fresh_list n (dom m)) end.
  assert (Hfresh : ∀ p, p ∈ dom m → p ∉ w).
  { intros p Hp Hw. by apply fresh_list_is_fresh in Hw. }
  mem_read Hfresh. mem_lift Hfresh.
  rewrite write_run.
  mem_close Hfresh.
Qed.

(** [objective] writes nothing. *)
Lemma objective_memory (self : Optimizer) (x : ndarray) (m : memory) :
  (objective self x m).2 = m.
Proof.
  unfold objective. rewrite read_run. destruct (peek m x); [|done].
  rewrite mem_bind_run. unfold read2 at 1.
  destruct (mapM _ _); [|done].
  rewrite mem_lift_run. destruct (np.dot _ _); [|done].
  rewrite read_run. destruct (peek m (obs self)); [|done].
  rewrite mem_lift_run. by destruct (np.broadcast2 _ _ _).
Qed.

(** In the scenario of [Views.mem0] the observations are non-negative
    and [v], the first column of the operator, has their length; the
    call overwrites the operator's entry -1 with 1. *)
Lemma operator_view_counterexample :
  peek mem0 (obs opt0) = Some [1; 1] ∧
  mapM (peek mem0) (rows (obs_mat opt0)) = Some [[- (1); 0]; [0; 1]] ∧
  peek mem0 column0 = Some [- (1); 0] ∧
  (∃ m', _soft_prox opt0 column0 1 mem0
         = (Ok [7%positive; 8%positive], m') ∧
         peek m' [7%positive; 8%positive] = Some [- (1); 0] ∧
         mapM (peek m') (rows (obs_mat opt0)) = Some [[1; 0]; [0; 1]]) ∧
  ¬ soft_prox_keeps_stored opt0 mem0 column0 1.
Proof.
  split; [reflexivity|]. split; [reflexivity|]. split; [reflexivity|].
  split.
  - eexists. split; [vm_compute; reflexivity|].
    split; vm_compute; reflexivity.
  - intros [_ Hrows]. apply Forall_cons_1 in Hrows as [Hrow _].
    vm_compute in Hrow. discriminate Hrow.
Qed.

(** The same through a view of the observations: [v = obs[:]] is another
    object over the cells of [obs], and a stored observation -3 becomes
    3. *)
Example observation_view_overwritten :
  let m : memory := {[ 1%positive := - (3) ]} in
  let self := {| obs_mat := Ndarray2 1 1 [[2%positive]];
                 obs := [1%positive]; obj_type := default_obj_type;
                 num_obs := 1; image_size := 1;
                 obj_his := []; err_his := [] |} in
  peek m (obs self) = Some [- (3)] ∧
  peek (_soft_prox self [1%positive] 1 m).2 (obs self) = Some [3].
Proof. split; vm_compute; reflexivity. Qed.

(** C8, amended. None of the soft proximal operator, the hard proximal
    operator and [objective] has the optimizer among its results: they
    assign to no field.  On every path, failing ones included, the hard
    proximal operator and [objective] write to no memory that was in use
    before the call, and the soft proximal operator writes to such memory
    only through its argument [v], leaving in each entry of [v] its
    absolute value.  The array a proximal operator returns is over memory
    that was not in use: it shares no entry with the observations, the
    operator or [v].  So any array, in particular the stored observations
    and every row of the stored operator, reads after a call of the soft
    proximal operator as before it, provided each entry it shares with
    [v] is non-negative; a negative entry shared with [v] is replaced by
    its absolute value. *)
Theorem prox_memory_frame
    (self : Optimizer) (m : memory) (v : ndarray) (vs : list Q) (alpha : Q) :
  peek m v = Some vs →
  (∃ (r : result ndarray) (m' : memory),
     _soft_prox self v alpha m = (r, m') ∧
     (∀ p, p ∈ dom m → p ∉ v → m' !! p = m !! p) ∧
     (∀ p x, p ∈ v → m !! p = Some x → m' !! p = Some (Qabs x)) ∧
     peek m' v = Some (np.abs vs) ∧
     (∀ w, r = Ok w → ∀ p, p ∈ w → p ∉ dom m) ∧
     (∀ (a : ndarray) (xs : list Q),
        peek m a = Some xs →
        (∀ p x, p ∈ a → p ∈ v → m !! p = Some x → 0 <= x) →
        peek m' a = Some xs)) ∧
  (∃ (r : result ndarray) (m' : memory),
     _hard_prox self v m = (r, m') ∧
     (∀ p, p ∈ dom m → m' !! p = m !! p) ∧
     (∀ w, r = Ok w → ∀ p, p ∈ w → p ∉ dom m) ∧
     (∀ (a : ndarray) (xs : list Q),
        peek m a = Some xs → peek m' a = Some xs)) ∧
  (∀ x : ndarray, (objective self x m).2 = m).
Proof.
  intros Hv. split; [|split].
  - destruct (soft_prox_memory self m v vs alpha Hv)
      as (r & m' & Hrun & Hmem & Hnew).
    assert (Hcell : ∀ p x, m !! p = Some x →
              m' !! p = Some (if decide (p ∈ v) then Qabs x else x)).
    { intros p x Hp. rewrite Hmem by (by apply elem_of_dom_2 in Hp).
      rewrite (poke_abs m v vs p Hv), Hp. by destruct (decide (p ∈ v)). }
    exists r, m'. split; [exact Hrun|]. repeat split.
    + intros p [x Hp]%elem_of_dom Hnin.
      rewrite (Hcell p x Hp), Hp. by rewrite decide_False.
    + intros p x Hin Hp. rewrite (Hcell p x Hp). by rewrite decide_True.
    + apply mapM_Some_2. apply mapM_Some_1 in Hv. unfold np.abs.
      apply Forall2_same_length_lookup_2.
      { rewrite length_map. by eapply Forall2_length. }
      intros i p y Hip Hiy. rewrite list_lookup_fmap in Hiy.
      destruct (vs !! i) as [x|] eqn:Hix; [|done]. injection Hiy as <-.
      pose proof (Forall2_lookup_lr _ _ _ _ _ _ Hv Hip Hix) as Hp.
      rewrite (Hcell p x Hp). rewrite decide_True; [done|].
      by eapply list_elem_of_lookup_2.
    + exact Hnew.
    + intros a xs Ha Hpos. apply mapM_Some_2. apply mapM_Some_1 in Ha.
      apply Forall2_same_length_lookup_2; [by eapply Forall2_length|].
      intros i p x Hip Hix.
      pose proof (Forall2_lookup_lr _ _ _ _ _ _ Ha Hip Hix) as Hp.
      rewrite (Hcell p x Hp).
      destruct (decide (p ∈ v)) as [Hin|]; [|done].
      rewrite (Qabs_nonneg_id x); [done|].
      apply (Hpos p x); [by eapply list_elem_of_lookup_2|done|done].
  - destruct (hard_prox_memory self m v) as (r & m' & Hrun & Hmem & Hnew).
    exists r, m'. split; [exact Hrun|]. repeat split; [exact Hmem|exact Hnew|].
    intros a xs Ha. rewrite <- Ha. apply peek_same.
    intros p Hp. apply Hmem. apply mapM_Some_1 in Ha.
    apply list_elem_of_lookup in Hp as [i Hi].
    destruct (Forall2_lookup_l _ _ _ _ _ Ha Hi) as (x & _ & Hx).
    by apply elem_of_dom_2 in Hx.
  - intros x. apply objective_memory.
Qed.

Lemma prox_memory_frame_witness :
  (∃ (r : result ndarray) (m' : memory),
     _soft_prox opt0 column0 1 mem0 = (r, m') ∧
     (∀ p, p ∈ dom mem0 → p ∉ column0 → m' !! p = mem0 !! p) ∧
     (∀ p x, p ∈ column0 → mem0 !! p = Some x →
             m' !! p = Some (Qabs x)) ∧
     peek m' column0 = Some (np.abs [- (1); 0]) ∧
     (∀ w, r = Ok w → ∀ p, p ∈ w → p ∉ dom mem0) ∧
     (∀ (a : ndarray) (xs : list Q),
        peek mem0 a = Some xs →
        (∀ p x, p ∈ a → p ∈ column0 → mem0 !! p = Some x →
                0 <= x) →
        peek m' a = Some xs)) ∧
  (∃ (r : result ndarray) (m' : memory),
     _hard_prox opt0 column0 mem0 = (r, m') ∧
     (∀ p, p ∈ dom mem0 → m' !! p = mem0 !! p) ∧
     (∀ w, r = Ok w → ∀ p, p ∈ w → p ∉ dom mem0) ∧
     (∀ (a : ndarray) (xs : list Q),
        peek mem0 a = Some xs → peek m' a = Some xs)) ∧
  (∀ x : ndarray, (objective opt0 x mem0).2 = mem0).
Proof.
  apply (prox_memory_frame opt0 mem0 column0 [- (1); 0] 1).
  reflexivity.
Defined.

End ViewsFacts.

(** ** C9: the abstract method *)

(** C9. [phase_retrieval] on the base class raises NotImplementedError
    whatever the fit options, and changes neither the store nor the
    optimizer. *)
Theorem phase_retrieval_raises
    (self : Optimizer) (fit_options : gmap string pyfloat) (h : store) :
  phase_retrieval self fit_options h = (Raise NotImplementedError, h) ∧
  invoke (call_phase_retrieval fit_options) self h
  = (Raise NotImplementedError, self, h).
Proof. split; reflexivity. Qed.

(** ** C10: the objective type is stored and never read *)

(** C10. [__init__] accepts every objective type and stores it as given;
    two optimizers that differ only in their objective type answer every
    call with the same outcome and the same store, and end as two
    optimizers that again differ only in the objective type, still the
    one each was given. *)
Theorem obj_type_never_read :
  (∀ (A : np.ndarray2) (l : loc) (t : string) (h : store),
     ∃ self, __init__ A l t h = (Ok self, h) ∧ obj_type self = t ∧
             ∀ t', __init__ A l t' h = (Ok (with_obj_type self t'), h)) ∧
  (∀ (c : call) (self : Optimizer) (t1 t2 : string) (h : store),
     let out1 := invoke c (with_obj_type self t1) h in
     let out2 := invoke c (with_obj_type self t2) h in
     out1.1.1 = out2.1.1 ∧
     out1.2 = out2.2 ∧
     obj_type out1.1.2 = t1 ∧
     obj_type out2.1.2 = t2 ∧
     out1.1.2 = with_obj_type out2.1.2 t1 ∧
     out2.1.2 = with_obj_type out1.1.2 t2).
Proof.
  split.
  - intros A l t h. eexists. repeat split.
  - intros c self t1 t2 h.
    destruct c; simpl; try done.
    + change (_soft_prox (with_obj_type self t1) v alpha)
        with (_soft_prox (with_obj_type self t2) v alpha).
      by destruct (returning _ _ h).
    + change (_hard_prox (with_obj_type self t1) v)
        with (_hard_prox (with_obj_type self t2) v).
      by destruct (returning _ _ h).
    + change (objective (with_obj_type self t1) x)
        with (objective (with_obj_type self t2) x).
      by destruct (returning _ _ h).
Qed.

(** * Further properties of the methods *)

(** ** Sums and pointwise equality of arrays *)

Lemma sum_abs_cons (t : Q) (d : list Q) :
  np.sum (np.abs (t :: d)) = Qabs t + np.sum (np.abs d).
Proof. reflexivity. Qed.

Lemma sum_abs_nonneg (d : list Q) : 0 <= np.sum (np.abs d).
Proof.
  induction d as [|t d IH]; [by vm_compute|].
  rewrite sum_abs_cons. pose proof (Qabs_nonneg t). lra.
Qed.

Lemma Qabs_zero_iff (t : Q) : Qabs t == 0 ↔ t == 0.
Proof.
  split; intros H.
  - destruct (Qabs_Qle_condition t 0) as [Hc _].
    destruct Hc as [H1 H2]; [rewrite H|]; lra.
  - rewrite H. reflexivity.
Qed.

Lemma sum_abs_zero (d : list Q) :
  np.sum (np.abs d) == 0 ↔ Forall (fun t => t == 0) d.
Proof.
  induction d as [|t d IH].
  - split; [constructor|reflexivity].
  - rewrite sum_abs_cons.
    pose proof (Qabs_nonneg t). pose proof (sum_abs_nonneg d). split.
    + intros Hs. constructor.
      * apply Qabs_zero_iff. lra.
      * apply IH. lra.
    + intros [Ht Hrest]%Forall_cons_1. apply IH in Hrest.
      apply Qabs_zero_iff in Ht. lra.
Qed.

Lemma sum_Qeq (a b : list Q) : Forall2 Qeq a b → np.sum a == np.sum b.
Proof.
  induction 1 as [|x y a b Hxy _ IH]; [reflexivity|].
  change (x + np.sum a == y + np.sum b). by rewrite Hxy, IH.
Qed.

Lemma abs_Qeq (a b : list Q) :
  Forall2 Qeq a b → Forall2 Qeq (np.abs a) (np.abs b).
Proof.
  induction 1 as [|x y a b Hxy _ IH]; simpl; constructor; [|done].
  by rewrite Hxy.
Qed.

Lemma dotp_opp (r xs : list Q) :
  np.dotp r (map Qopp xs) == - np.dotp r xs.
Proof.
  revert xs. induction r as [|a r IH]; intros [|x xs]; try reflexivity.
  change (a * - x + np.dotp r (map Qopp xs) == - (a * x + np.dotp r xs)).
  rewrite IH. ring.
Qed.

(** ** The objective *)

(** The value [objective] returns when the operator has as many rows as
    there are observations and as many columns as [x] has entries. *)
Lemma objective_value
    (self : Optimizer) (h : store) (x : loc) (xs os : list Q) :
  h !! x = Some xs → h !! obs self = Some os →
  length xs = np.shape1 (obs_mat self) →
  length os = length (np.rows (obs_mat self)) →
  objective self x h
  = (Ok (np.sum (np.abs (zip_with Qminus
           (np.abs (map (fun r => np.dotp r xs) (np.rows (obs_mat self))))
           os))), h).
Proof.
  intros Hx Ho Hlx Hlo. unfold objective.
  run_load. rewrite lift_run. unfold np.dot. rewrite decide_True by done.
  run_load. rewrite lift_run, broadcast2_ok; [done|].
  unfold np.abs. by rewrite !length_map.
Qed.

(** X1. Whenever [objective] returns, what it returns is not
    negative. *)
Theorem objective_nonneg
    (self : Optimizer) (h h' : store) (x : loc) (q : Q) :
  objective self x h = (Ok q, h') → 0 <= q.
Proof.
  unfold objective. rewrite bind_run. unfold load at 1.
  destruct (h !! x); [|done].
  rewrite lift_run. destruct (np.dot _ _); [|done].
  rewrite bind_run. unfold load at 1.
  destruct (h !! obs self); [|done].
  rewrite lift_run. destruct (np.broadcast2 _ _ _); [|done].
  intros [= <- _]. apply sum_abs_nonneg.
Qed.

Lemma objective_nonneg_witness :
  objective Scenario.opt Scenario.l_x (Scenario.mem [5; 5] [0; 0])
  = (Ok 7, Scenario.mem [5; 5] [0; 0]) ∧ 0 <= 7.
Proof.
  assert (H : objective Scenario.opt Scenario.l_x (Scenario.mem [5; 5] [0; 0])
              = (Ok 7, Scenario.mem [5; 5] [0; 0]))
    by (vm_compute; reflexivity).
  split; [exact H|]. exact (objective_nonneg _ _ _ _ _ H).
Defined.

(** X2. Flipping the sign of every entry of the candidate does not
    change the objective: for [x] and an array holding [-x], [objective]
    returns equal numbers. *)
Theorem objective_sign_flip
    (self : Optimizer) (h : store) (x x' : loc) (xs os : list Q) :
  h !! x = Some xs →
  h !! x' = Some (map Qopp xs) →
  h !! obs self = Some os →
  length xs = np.shape1 (obs_mat self) →
  length os = length (np.rows (obs_mat self)) →
  ∃ q q' : Q,
    objective self x h = (Ok q, h) ∧
    objective self x' h = (Ok q', h) ∧
    q == q'.
Proof.
  intros Hx Hx' Ho Hlx Hlo.
  eexists _, _. split; [by apply (objective_value self h x xs os)|].
  split.
  - apply (objective_value self h x' (map Qopp xs) os); try done.
    by rewrite length_map.
  - apply sum_Qeq, abs_Qeq. clear. revert os.
    induction (np.rows (obs_mat self)) as [|r rs IH]; intros [|o os];
      simpl; try constructor.
    + rewrite dotp_opp, Qabs_opp. reflexivity.
    + apply IH.
Qed.

Lemma objective_sign_flip_witness :
  ∃ q q' : Q,
    objective Scenario.opt Scenario.l_x (Scenario.mem [-1; -2] [1; 2])
    = (Ok q, Scenario.mem [-1; -2] [1; 2]) ∧
    objective Scenario.opt Scenario.l_v (Scenario.mem [-1; -2] [1; 2])
    = (Ok q', Scenario.mem [-1; -2] [1; 2]) ∧
    q == q'.
Proof.
  apply (objective_sign_flip Scenario.opt (Scenario.mem [-1; -2] [1; 2])
           Scenario.l_x Scenario.l_v [1; 2] [3; 4]).
  - reflexivity.
  - reflexivity.
  - reflexivity.
  - reflexivity.
  - reflexivity.
Defined.

(** X3. The objective is zero exactly when the candidate reproduces
    every observed magnitude: [|row_i · x| == obs_i] for every row. *)
Theorem objective_zero_iff
    (self : Optimizer) (h : store) (x : loc) (xs os : list Q) :
  h !! x = Some xs →
  h !! obs self = Some os →
  length xs = np.shape1 (obs_mat self) →
  length os = length (np.rows (obs_mat self)) →
  ∃ q : Q,
    objective self x h = (Ok q, h) ∧
    (q == 0 ↔
     ∀ (i : nat) (r : list Q) (o : Q),
       np.rows (obs_mat self) !! i = Some r → os !! i = Some o →
       Qabs (np.dotp r xs) == o).
Proof.
  intros Hx Ho Hlx Hlo.
  eexists. split; [by apply (objective_value self h x xs os)|].
  rewrite sum_abs_zero, Forall_lookup. split.
  - intros H i r o Hr Hio.
    specialize (H i (Qabs (np.dotp r xs) - o)).
    assert (Hi : zip_with Qminus
              (np.abs (map (fun r => np.dotp r xs) (np.rows (obs_mat self))))
              os !! i = Some (Qabs (np.dotp r xs) - o)).
    { unfold np.abs. rewrite lookup_zip_with, !list_lookup_fmap, Hr, Hio.
      done. }
    specialize (H Hi). lra.
  - intros H i t Hi.
    apply lookup_zip_with_Some in Hi as (y & o & -> & Hy & Hio).
    unfold np.abs in Hy. rewrite !list_lookup_fmap in Hy.
    destruct (np.rows (obs_mat self) !! i) as [r|] eqn:Hr; [|done].
    injection Hy as <-. specialize (H i r o Hr Hio). lra.
Qed.

Lemma objective_zero_iff_witness :
  ∃ q : Q,
    objective Scenario.opt Scenario.l_x (Scenario.mem [5; 5] [-3; 4])
    = (Ok q, Scenario.mem [5; 5] [-3; 4]) ∧
    (q == 0 ↔
     ∀ (i : nat) (r : list Q) (o : Q),
       np.rows (obs_mat Scenario.opt) !! i = Some r →
       ([3; 4] : list Q) !! i = Some o →
       Qabs (np.dotp r [-3; 4]) == o).
Proof.
  apply (objective_zero_iff Scenario.opt (Scenario.mem [5; 5] [-3; 4])
           Scenario.l_x [-3; 4] [3; 4]).
  - reflexivity.
  - reflexivity.
  - reflexivity.
  - reflexivity.
Defined.

(** ** The proximal operators, coordinate by coordinate *)

(** Case analysis on every absolute value of the goal. *)
Ltac qabs_elim :=
  repeat match goal with
  | |- context [Qabs ?t] =>
      lazymatch goal with
      | _ : Qabs t == _ |- _ => fail
      | _ => idtac
      end;
      destruct (Qlt_le_dec t 0);
      [pose proof (Qabs_neg t ltac:(lra)) | pose proof (Qabs_pos t ltac:(lra))]
  end.

(** Case analysis on the sign of [x], the two masks of [soft_coord]
    turned into inequalities. *)
Ltac soft_cases alpha o x :=
  unfold soft_coord;
  destruct (Qgtb (Qabs x) (o + alpha)) eqn:?Hr;
    [apply Qgtb_gt in Hr | apply Qgtb_le in Hr];
    (destruct (Qltb (Qabs x) (o - alpha)) eqn:?Hl;
       [apply Qltb_lt in Hl | apply Qltb_ge in Hl]);
  (destruct (Q_dec x 0) as [[?Hneg|?Hpos]|?Hz];
     [rewrite (Qsgn_neg x) by done; pose proof (Qabs_neg x ltac:(lra))
     |rewrite (Qsgn_pos x) by done; pose proof (Qabs_pos x ltac:(lra))
     |rewrite (Qsgn_zero x) by done; pose proof (Qabs_pos x ltac:(lra))]).

Lemma soft_coord_mismatch (alpha o x : Q) :
  0 <= alpha → 0 <= o →
  Qabs (Qabs (soft_coord alpha o x) - o) <= Qabs (Qabs x - o).
Proof.
  intros Halpha Ho. soft_cases alpha o x; qabs_elim; lra.
Qed.

Lemma Qabs_Qabs (x : Q) : Qabs (Qabs x) = Qabs x.
Proof.
  destruct x as [n d]. unfold Qabs.
  by rewrite (Z.abs_eq (Z.abs n)) by apply Z.abs_nonneg.
Qed.

Lemma soft_coord_abs (alpha o x : Q) :
  soft_coord alpha o (Qabs x) == soft_coord alpha o x * Qsgn x.
Proof.
  unfold soft_coord. rewrite Qabs_Qabs.
  set (w := if Qgtb _ _ then _ else _). clearbody w.
  destruct (Q_dec x 0) as [[Hneg|Hpos]|Hz].
  - rewrite (Qsgn_neg x Hneg), (Qsgn_pos (Qabs x)); [ring|].
    rewrite Qabs_neg; lra.
  - rewrite (Qsgn_pos x Hpos), (Qsgn_pos (Qabs x)); [ring|].
    rewrite Qabs_pos; lra.
  - rewrite (Qsgn_zero x Hz), (Qsgn_zero (Qabs x)); [ring|].
    by apply Qabs_zero_iff.
Qed.

Lemma Qabs_opp_eq (x : Q) : Qabs (- x) = Qabs x.
Proof. destruct x as [n d]. unfold Qabs, Qopp. by rewrite Z.abs_opp. Qed.

Lemma Qsgn_opp (x : Q) : Qsgn (- x) = - Qsgn x.
Proof.
  destruct x as [n d]. unfold Qsgn, Qopp, inject_Z. simpl.
  by rewrite Z.sgn_opp.
Qed.

Lemma hard_coord_opp (o x : Q) : hard_coord o (- x) == - hard_coord o x.
Proof. unfold hard_coord. rewrite Qsgn_opp. ring. Qed.

Lemma hard_coord_idem (o x : Q) :
  0 <= o → hard_coord o (hard_coord o x) = hard_coord o x.
Proof.
  destruct o as [n d], x as [m e].
  unfold Qle, hard_coord, Qsgn, Qmult, inject_Z; simpl. intros Hn.
  f_equal. destruct m, n; simpl; lia.
Qed.

(** ** The soft proximal operator *)

(** X5. With non-negative observations the soft proximal operator never
    takes a magnitude further from its observation: at every coordinate
    [| |w| - obs |] is at most [| |v| - obs |]. *)
Theorem soft_prox_mismatch_shrinks
    (self : Optimizer) (h : store) (v : loc) (vs os : list Q) (alpha : Q) :
  h !! v = Some vs →
  h !! obs self = Some os →
  length vs = length os →
  Forall (Qle 0) os →
  0 <= alpha →
  ∃ (w : loc) (ws : list Q) (h' : store),
    _soft_prox self v alpha h = (Ok w, h') ∧
    h' !! w = Some ws ∧
    ∀ (i : nat) (o x y : Q),
      os !! i = Some o → vs !! i = Some x → ws !! i = Some y →
      Qabs (Qabs y - o) <= Qabs (Qabs x - o).
Proof.
  intros Hv Ho Hlen Hnn Halpha.
  pose proof (obs_as_read_same self h v vs os Hv Ho (or_intror Hnn)) as Hsame.
  eexists _, _, _. split; [|split].
  - by apply (soft_prox_run self h v vs os).
  - apply lookup_insert_eq.
  - rewrite Hsame. intros i o x y Hio Hix.
    rewrite lookup_zip_with, Hio, Hix. simpl. intros [= <-].
    apply soft_coord_mismatch; [done|].
    exact (Forall_lookup_1 _ _ _ _ Hnn Hio).
Qed.

Lemma soft_prox_mismatch_shrinks_witness :
  ∃ (w : loc) (ws : list Q) (h' : store),
    _soft_prox Scenario.opt Scenario.l_v 1 (Scenario.mem [-5; 1] [3; 4])
    = (Ok w, h') ∧
    h' !! w = Some ws ∧
    ∀ (i : nat) (o x y : Q),
      ([3; 4] : list Q) !! i = Some o → ([-5; 1] : list Q) !! i = Some x →
      ws !! i = Some y →
      Qabs (Qabs y - o) <= Qabs (Qabs x - o).
Proof.
  apply (soft_prox_mismatch_shrinks Scenario.opt
           (Scenario.mem [-5; 1] [3; 4]) Scenario.l_v [-5; 1] [3; 4] 1).
  - reflexivity.
  - reflexivity.
  - reflexivity.
  - repeat constructor; discriminate.
  - discriminate.
Defined.

(** X6. Calling the soft proximal operator a second time on the same
    array does not repeat the first answer: the first call has left
    [|v|] in the array, so the second returns, in another new array, the
    first result with the signs of [v] taken off (each entry times
    [sign v]); the first result is still in place. *)
Theorem soft_prox_twice
    (self : Optimizer) (h : store) (v : loc) (vs os : list Q) (alpha : Q) :
  h !! v = Some vs →
  h !! obs self = Some os →
  v ≠ obs self →
  length vs = length os →
  0 <= alpha →
  ∃ (w1 w2 : loc) (ws1 ws2 : list Q) (h1 h2 : store),
    _soft_prox self v alpha h = (Ok w1, h1) ∧
    _soft_prox self v alpha h1 = (Ok w2, h2) ∧
    w1 ≠ w2 ∧
    h2 !! w1 = Some ws1 ∧ h2 !! w2 = Some ws2 ∧
    h2 !! v = Some (np.abs vs) ∧
    length ws2 = length ws1 ∧
    ∀ (i : nat) (x y1 y2 : Q),
      vs !! i = Some x → ws1 !! i = Some y1 → ws2 !! i = Some y2 →
      y2 == y1 * Qsgn x.
Proof.
  intros Hv Ho Hne Hlen Halpha.
  pose proof (obs_as_read_same self h v vs os Hv Ho (or_introl Hne)) as Hs.
  set (w1 := fresh (dom h)).
  assert (Hw1 : h !! w1 = None) by apply fresh_None.
  set (ws1 := zip_with (soft_coord alpha) os vs).
  set (h1 := <[w1 := ws1]> (<[v := np.abs vs]> h)).
  assert (Hrun1 : _soft_prox self v alpha h = (Ok w1, h1)).
  { rewrite (soft_prox_run self h v vs os) by done. by rewrite Hs. }
  assert (Hv1 : h1 !! v = Some (np.abs vs)).
  { subst h1. rewrite lookup_insert_ne by congruence.
    apply lookup_insert_eq. }
  assert (Ho1 : h1 !! obs self = Some os).
  { subst h1. rewrite lookup_insert_ne by congruence.
    by rewrite lookup_insert_ne. }
  assert (Hla : length (np.abs vs) = length os)
    by (unfold np.abs; by rewrite length_map).
  pose proof (obs_as_read_same self h1 v (np.abs vs) os Hv1 Ho1
                (or_introl Hne)) as Hs1.
  set (w2 := fresh (dom h1)).
  assert (Hw2 : h1 !! w2 = None) by apply fresh_None.
  assert (Hw12 : w1 ≠ w2).
  { intros Heq. subst h1. rewrite <- Heq, lookup_insert_eq in Hw2. done. }
  assert (Hw2v : w2 ≠ v) by congruence.
  exists w1, w2, ws1, (zip_with (soft_coord alpha) os (np.abs vs)).
  eexists h1, _. split; [exact Hrun1|]. split.
  { rewrite (soft_prox_run self h1 v (np.abs vs) os) by done.
    by rewrite Hs1. }
  assert (Haa : np.abs (np.abs vs) = np.abs vs).
  { unfold np.abs. rewrite map_map. apply map_ext. apply Qabs_Qabs. }
  rewrite Haa.
  split; [done|]. split.
  { rewrite lookup_insert_ne by done.
    rewrite lookup_insert_ne by congruence. apply lookup_insert_eq. }
  split; [apply lookup_insert_eq|]. split.
  { rewrite lookup_insert_ne by done. apply lookup_insert_eq. }
  split.
  { subst ws1. unfold np.abs. by rewrite !length_zip_with, length_map. }
  intros i x y1 y2 Hix Hi1. subst ws1.
  apply lookup_zip_with_Some in Hi1 as (o & x' & -> & Hio & Hix').
  rewrite Hix in Hix'. injection Hix' as <-.
  unfold np.abs. rewrite lookup_zip_with, Hio, list_lookup_fmap, Hix. simpl.
  intros [= <-]. apply soft_coord_abs.
Qed.

Lemma soft_prox_twice_witness :
  ∃ (w1 w2 : loc) (ws1 ws2 : list Q) (h1 h2 : store),
    _soft_prox Scenario.opt Scenario.l_v 1 (Scenario.mem [-5; 5] [3; 4])
    = (Ok w1, h1) ∧
    _soft_prox Scenario.opt Scenario.l_v 1 h1 = (Ok w2, h2) ∧
    w1 ≠ w2 ∧
    h2 !! w1 = Some ws1 ∧ h2 !! w2 = Some ws2 ∧
    h2 !! Scenario.l_v = Some (np.abs [-5; 5]) ∧
    length ws2 = length ws1 ∧
    ∀ (i : nat) (x y1 y2 : Q),
      ([-5; 5] : list Q) !! i = Some x → ws1 !! i = Some y1 →
      ws2 !! i = Some y2 → y2 == y1 * Qsgn x.
Proof.
  apply (soft_prox_twice Scenario.opt (Scenario.mem [-5; 5] [3; 4])
           Scenario.l_v [-5; 5] [3; 4] 1).
  - reflexivity.
  - reflexivity.
  - discriminate.
  - reflexivity.
  - discriminate.
Defined.

(** X7. An array whose magnitudes equal the observations is a fixed
    point of both proximal operators: each returns, in a new array,
    entries equal to those of [v]. *)
Theorem prox_fixed_point
    (self : Optimizer) (h : store) (v : loc) (vs os : list Q) (alpha : Q) :
  h !! v = Some vs →
  h !! obs self = Some os →
  Forall2 (fun x o => Qabs x == o) vs os →
  0 <= alpha →
  (∃ (w : loc) (ws : list Q) (h' : store),
     _soft_prox self v alpha h = (Ok w, h') ∧
     h' !! w = Some ws ∧ Forall2 Qeq ws vs) ∧
  (∃ (w : loc) (ws : list Q) (h' : store),
     _hard_prox self v h = (Ok w, h') ∧
     h' !! w = Some ws ∧ Forall2 Qeq ws vs).
Proof.
  intros Hv Ho Hmag Halpha.
  assert (Hlen : length vs = length os) by (by eapply Forall2_length).
  assert (Hnn : Forall (Qle 0) os).
  { clear -Hmag. induction Hmag as [|x o vs os Hxo _ IH]; constructor.
    - rewrite <- Hxo. apply Qabs_nonneg.
    - exact IH. }
  pose proof (obs_as_read_same self h v vs os Hv Ho (or_intror Hnn)) as Hs.
  split.
  - eexists _, _, _. split; [by apply (soft_prox_run self h v vs os)|].
    split; [apply lookup_insert_eq|]. rewrite Hs.
    clear -Hmag Halpha. induction Hmag as [|x o vs os Hxo _ IH]; simpl;
      constructor; [|exact IH].
    pose proof (Qabs_mult_sgn x) as Hx.
    soft_cases alpha o x; lra.
  - eexists _, _, _. split; [by apply (hard_prox_run self h v vs os)|].
    split; [apply lookup_insert_eq|].
    clear -Hmag. induction Hmag as [|x o vs os Hxo _ IH]; simpl;
      constructor; [|exact IH].
    unfold hard_coord. rewrite <- Hxo, Qmult_comm. apply Qabs_mult_sgn.
Qed.

Lemma prox_fixed_point_witness :
  (∃ (w : loc) (ws : list Q) (h' : store),
     _soft_prox Scenario.opt Scenario.l_v 1 (Scenario.mem [-3; 4] [3; 4])
     = (Ok w, h') ∧
     h' !! w = Some ws ∧ Forall2 Qeq ws [-3; 4]) ∧
  (∃ (w : loc) (ws : list Q) (h' : store),
     _hard_prox Scenario.opt Scenario.l_v (Scenario.mem [-3; 4] [3; 4])
     = (Ok w, h') ∧
     h' !! w = Some ws ∧ Forall2 Qeq ws [-3; 4]).
Proof.
  apply (prox_fixed_point Scenario.opt (Scenario.mem [-3; 4] [3; 4])
           Scenario.l_v [-3; 4] [3; 4] 1).
  - reflexivity.
  - reflexivity.
  - repeat constructor.
  - discriminate.
Defined.

(** ** The hard proximal operator *)

(** X8. With non-negative observations the hard proximal operator is
    idempotent: applied to the array it returned, it returns another new
    array with the very same entries. *)
Theorem hard_prox_idempotent
    (self : Optimizer) (h : store) (v : loc) (vs os : list Q) :
  h !! v = Some vs →
  h !! obs self = Some os →
  length vs = length os →
  Forall (Qle 0) os →
  ∃ (w1 w2 : loc) (ws : list Q) (h1 h2 : store),
    _hard_prox self v h = (Ok w1, h1) ∧
    _hard_prox self w1 h1 = (Ok w2, h2) ∧
    w1 ≠ w2 ∧
    h2 !! w1 = Some ws ∧ h2 !! w2 = Some ws.
Proof.
  intros Hv Ho Hlen Hnn.
  set (w1 := fresh (dom h)).
  assert (Hw1 : h !! w1 = None) by apply fresh_None.
  set (ws := zip_with hard_coord os vs).
  set (h1 := <[w1 := ws]> h).
  assert (H1w : h1 !! w1 = Some ws) by apply lookup_insert_eq.
  assert (H1o : h1 !! obs self = Some os)
    by (subst h1; rewrite lookup_insert_ne by congruence; done).
  assert (Hlw : length ws = length os)
    by (subst ws; rewrite length_zip_with; lia).
  set (w2 := fresh (dom h1)).
  assert (Hw2 : h1 !! w2 = None) by apply fresh_None.
  assert (Hw12 : w1 ≠ w2) by congruence.
  assert (Hidem : zip_with hard_coord os ws = ws).
  { subst ws. clear -Hnn Hlen. revert vs Hlen.
    induction Hnn as [|o os Hpos _ IH]; intros [|x vs]; simpl; try done.
    intros [= Hlen]. by rewrite hard_coord_idem, IH. }
  exists w1, w2, ws, h1. eexists.
  split; [by apply (hard_prox_run self h v vs os)|]. split.
  { rewrite (hard_prox_run self h1 w1 ws os) by done. by rewrite Hidem. }
  split; [done|]. split.
  - by rewrite lookup_insert_ne.
  - apply lookup_insert_eq.
Qed.

Lemma hard_prox_idempotent_witness :
  ∃ (w1 w2 : loc) (ws : list Q) (h1 h2 : store),
    _hard_prox Scenario.opt Scenario.l_v (Scenario.mem [-5; 5] [3; 4])
    = (Ok w1, h1) ∧
    _hard_prox Scenario.opt w1 h1 = (Ok w2, h2) ∧
    w1 ≠ w2 ∧
    h2 !! w1 = Some ws ∧ h2 !! w2 = Some ws.
Proof.
  apply (hard_prox_idempotent Scenario.opt (Scenario.mem [-5; 5] [3; 4])
           Scenario.l_v [-5; 5] [3; 4]).
  - reflexivity.
  - reflexivity.
  - reflexivity.
  - repeat constructor; discriminate.
Defined.

(** ** Lengths that do not match *)

Lemma broadcast2_mismatch {A B C} (f : A → B → C)
    (a : list A) (b : list B) :
  length a ≠ length b → length a ≠ 1%nat → length b ≠ 1%nat →
  np.broadcast2 f a b = Raise ValueError.
Proof.
  intros Hab Ha Hb. unfold np.broadcast2. rewrite decide_False by done.
  destruct a as [|x [|x' a]], b as [|y [|y' b]]; simpl in *; done.
Qed.

Lemma broadcast2_left1 {A B C} (f : A → B → C) (x : A) (b : list B) :
  length b ≠ 1%nat → np.broadcast2 f [x] b = Ok (map (f x) b).
Proof.
  intros Hb. unfold np.broadcast2. rewrite decide_False; [done|].
  simpl. congruence.
Qed.

Lemma broadcast2_right1 {A B C} (f : A → B → C) (a : list A) (y : B) :
  length a ≠ 1%nat → np.broadcast2 f a [y] = Ok (map (fun x => f x y) a).
Proof.
  intros Ha. unfold np.broadcast2. rewrite decide_False by done.
  destruct a as [|x [|x' a]]; simpl in *; done.
Qed.

Lemma inplace2_right1 (f : Q → Q → Q) (a : list Q) (y : Q) :
  length a ≠ 1%nat → np.inplace2 f a [y] = Ok (map (fun x => f x y) a).
Proof.
  intros Ha. unfold np.inplace2. rewrite decide_False; [done|].
  simpl. congruence.
Qed.

Lemma inplace2_mismatch (f : Q → Q → Q) (a b : list Q) :
  length b ≠ length a → length b ≠ 1%nat →
  np.inplace2 f a b = Raise ValueError.
Proof.
  intros Hab Hb. unfold np.inplace2. rewrite decide_False by done.
  destruct b as [|y [|y' b]]; simpl in *; done.
Qed.

Lemma getmask_mismatch (a : list Q) (mask : list bool) :
  length mask ≠ length a → mask ≠ [] →
  np.getmask a mask = Raise IndexError.
Proof.
  intros H Hm. unfold np.getmask. rewrite decide_False by done.
  by destruct mask.
Qed.

Lemma setmask_mismatch (w : list Q) (mask : list bool) (vals : list Q) :
  length mask ≠ length w → mask ≠ [] →
  np.setmask w mask vals = Raise IndexError.
Proof.
  intros H Hm. unfold np.setmask. rewrite decide_False by done.
  by destruct mask.
Qed.

Lemma getmask_empty (a : list Q) : np.getmask a [] = Ok [].
Proof. unfold np.getmask. destruct a; by case_decide. Qed.

Lemma setmask_empty (w : list Q) : np.setmask w [] [] = Ok w.
Proof. unfold np.setmask. destruct w; by case_decide. Qed.

(** X9. Given a reference vector whose length is not that of the
    observations, the soft proximal operator first overwrites [v] with
    its absolute value, and writes to no other existing array.  It then
    raises ValueError when neither length is one (at the comparison) and
    when [v] is empty with a single observation (at [w *= sign_v]),
    IndexError when one of the two has a single entry and the other at
    least two (at the boolean indexing); with a single entry in [v] and
    no observation at all it raises nothing and returns a new empty
    array. *)
Theorem soft_prox_length_mismatch
    (self : Optimizer) (h : store) (v : loc) (vs os : list Q) (alpha : Q) :
  h !! v = Some vs →
  h !! obs self = Some os →
  length vs ≠ length os →
  h !! fresh (dom h) = None ∧
  ∃ (r : result loc) (b : list Q),
    _soft_prox self v alpha h
    = (r, <[fresh (dom h) := b]> (<[v := np.abs vs]> h)) ∧
    (length vs ≠ 1%nat → length os ≠ 1%nat → r = Raise ValueError) ∧
    (length vs = 1%nat → (2 <= length os)%nat → r = Raise IndexError) ∧
    (length os = 1%nat → (2 <= length vs)%nat → r = Raise IndexError) ∧
    (length os = 1%nat → vs = [] → r = Raise ValueError) ∧
    (length vs = 1%nat → os = [] → r = Ok (fresh (dom h)) ∧ b = []).
Proof.
  intros Hv Ho Hlen.
  assert (Hne : v ≠ obs self) by (intros ->; congruence).
  unfold _soft_prox.
  set (h1 := <[v := np.abs vs]> h).
  assert (Hv1 : h1 !! v = Some (np.abs vs)) by apply lookup_insert_eq.
  assert (Ho1 : h1 !! obs self = Some os)
    by (subst h1; by rewrite lookup_insert_ne).
  assert (Hd : dom h1 = dom h) by (by eapply dom_overwrite).
  set (w := fresh (dom h)).
  assert (Hw0 : h !! w = None) by apply fresh_None.
  assert (Hw : h1 !! w = None) by (subst w; rewrite <- Hd; apply fresh_None).
  assert (Hwv : w ≠ v) by congruence.
  assert (Hwo : w ≠ obs self) by congruence.
  assert (Hla : length (np.abs vs) = length vs)
    by (unfold np.abs; by rewrite length_map).
  split; [done|].
  run_load.
  rewrite lift_run, inplace2_ok, mul_sign_abs
    by (unfold np.sign; by rewrite length_map).
  rewrite bind_run, (store_at_ok _ _ _ _ Hv). fold h1.
  run_load.
  rewrite bind_run. unfold alloc at 1. rewrite Hd. fold w.
  run_load. run_load.
  destruct (decide (length vs = 1%nat)) as [Hv1'|Hvn].
  - (* a single entry in [v]: the masks take the observations' length *)
    destruct vs as [|x [|? ?]]; try done. simpl np.abs.
    rewrite lift_run, broadcast2_left1 by (rewrite length_map; simpl in *; lia).
    run_load. run_load. simpl np.abs.
    rewrite lift_run, broadcast2_left1 by (rewrite length_map; simpl in *; lia).
    run_load. simpl np.abs.
    destruct os as [|o os'].
    + (* no observation: the masks are empty *)
      simpl map. rewrite lift_run, getmask_empty.
      run_load. simpl map. rewrite lift_run, setmask_empty. run_store.
      run_load. rewrite lift_run, getmask_empty.
      run_load. simpl map. rewrite lift_run, setmask_empty. run_store.
      run_load. simpl np.sign.
      rewrite lift_run, inplace2_right1 by done. run_store.
      eexists _, _. split; [reflexivity|].
      repeat split; try done; simpl; intros; lia.
    + rewrite lift_run, getmask_mismatch
        by (rewrite ?length_map; simpl in *; try lia; done).
      eexists _, _. split; [reflexivity|].
      repeat split; try done; simpl; intros; lia.
  - destruct (decide (length os = 1%nat)) as [Ho1'|Hon].
    + (* a single observation: the masks take the length of [v] *)
      destruct os as [|o [|? ?]]; try done. simpl map.
      rewrite lift_run, broadcast2_right1 by congruence.
      run_load. run_load. simpl map.
      rewrite lift_run, broadcast2_right1 by congruence.
      run_load.
      rewrite lift_run, getmask_ok by (by rewrite length_map).
      run_load.
      destruct vs as [|x vs'].
      * (* [v] is empty: the masks are empty *)
        simpl np.abs. simpl map. simpl np.select.
        rewrite lift_run, setmask_empty. run_store.
        run_load. rewrite lift_run, getmask_empty.
        run_load. simpl map. rewrite lift_run, setmask_empty. run_store.
        run_load. simpl np.sign.
        rewrite lift_run, inplace2_mismatch by done.
        eexists _, _. split; [reflexivity|].
        repeat split; try done; simpl; intros; lia.
      * rewrite lift_run, setmask_mismatch
          by (rewrite ?length_map; simpl in *; try lia; done).
        eexists _, _. split; [reflexivity|].
        repeat split; try done; simpl; intros; lia.
    + rewrite lift_run, broadcast2_mismatch
        by (rewrite ?length_map; congruence).
      eexists _, _. split; [reflexivity|].
      repeat split; try done; intros; subst; simpl in *; lia.
Qed.

Lemma soft_prox_length_mismatch_witness :
  Scenario.mem [-5] [3; 4] !! fresh (dom (Scenario.mem [-5] [3; 4])) = None ∧
  ∃ (r : result loc) (b : list Q),
    _soft_prox Scenario.opt Scenario.l_v 1 (Scenario.mem [-5] [3; 4])
    = (r,
       <[fresh (dom (Scenario.mem [-5] [3; 4])) := b]>
         (<[Scenario.l_v := np.abs [-5]]> (Scenario.mem [-5] [3; 4]))) ∧
    (length ([-5] : list Q) ≠ 1%nat → length ([3; 4] : list Q) ≠ 1%nat →
     r = Raise ValueError) ∧
    (length ([-5] : list Q) = 1%nat → le 2 (length ([3; 4] : list Q)) →
     r = Raise IndexError) ∧
    (length ([3; 4] : list Q) = 1%nat → le 2 (length ([-5] : list Q)) →
     r = Raise IndexError) ∧
    (length ([3; 4] : list Q) = 1%nat → ([-5] : list Q) = [] →
     r = Raise ValueError) ∧
    (length ([-5] : list Q) = 1%nat → ([3; 4] : list Q) = [] →
     r = Ok (fresh (dom (Scenario.mem [-5] [3; 4]))) ∧ b = []).
Proof.
  apply (soft_prox_length_mismatch Scenario.opt (Scenario.mem [-5] [3; 4])
           Scenario.l_v [-5] [3; 4] 1).
  - reflexivity.
  - reflexivity.
  - discriminate.
Defined.

(** The two runs with an array of length zero: one entry in [v] and no
    observation give a new empty array; an empty [v] and one observation
    raise at [w *= sign_v]. *)
Example soft_prox_no_observation :
  _soft_prox Scenario.opt Scenario.l_v 1
    (<[Scenario.l_v := [2]]> (Mismatch.mem [] []))
  = (Ok 4%positive,
     <[4%positive := []]> (<[Scenario.l_v := [2]]> (Mismatch.mem [] []))).
Proof. vm_compute. reflexivity. Qed.

Example soft_prox_empty_v :
  _soft_prox Scenario.opt Scenario.l_v 1
    (<[Scenario.l_v := []]> (Mismatch.mem [3] []))
  = (Raise ValueError,
     <[4%positive := [3]]> (<[Scenario.l_v := []]> (Mismatch.mem [3] []))).
Proof. vm_compute. reflexivity. Qed.

(** X10. Given a reference vector whose length is not that of the
    observations, the hard proximal operator raises ValueError, having
    written to no existing array, unless [v] has a single entry: then it
    does not raise, and returns every observation times the sign of that
    entry. *)
Theorem hard_prox_length_mismatch
    (self : Optimizer) (h : store) (v : loc) (vs os : list Q) :
  h !! v = Some vs →
  h !! obs self = Some os →
  length vs ≠ length os →
  h !! fresh (dom h) = None ∧
  (length vs ≠ 1%nat →
   _hard_prox self v h = (Raise ValueError, <[fresh (dom h) := os]> h)) ∧
  (∀ x : Q, vs = [x] →
   _hard_prox self v h
   = (Ok (fresh (dom h)),
      <[fresh (dom h) := map (fun o => o * Qsgn x) os]> h)).
Proof.
  intros Hv Ho Hlen.
  set (w := fresh (dom h)).
  assert (Hw0 : h !! w = None) by apply fresh_None.
  split; [done|]. split.
  - intros Hn. unfold _hard_prox.
    run_load. run_load.
    rewrite bind_run. unfold alloc at 1. fold w.
    run_load.
    rewrite lift_run, inplace2_mismatch
      by (unfold np.sign; rewrite length_map; congruence).
    done.
  - intros x ->. unfold _hard_prox.
    run_load. run_load.
    rewrite bind_run. unfold alloc at 1. fold w.
    run_load. simpl np.sign.
    rewrite lift_run, inplace2_right1 by (simpl in Hlen; congruence).
    run_store. done.
Qed.

Lemma hard_prox_length_mismatch_witness :
  Scenario.mem [-5] [3; 4] !! fresh (dom (Scenario.mem [-5] [3; 4])) = None ∧
  (length ([-5] : list Q) ≠ 1%nat →
   _hard_prox Scenario.opt Scenario.l_v (Scenario.mem [-5] [3; 4])
   = (Raise ValueError,
      <[fresh (dom (Scenario.mem [-5] [3; 4])) := [3; 4]]>
        (Scenario.mem [-5] [3; 4]))) ∧
  (∀ x : Q, [-5] = [x] →
   _hard_prox Scenario.opt Scenario.l_v (Scenario.mem [-5] [3; 4])
   = (Ok (fresh (dom (Scenario.mem [-5] [3; 4]))),
      <[fresh (dom (Scenario.mem [-5] [3; 4])) :=
          map (fun o => o * Qsgn x) [3; 4]]> (Scenario.mem [-5] [3; 4]))).
Proof.
  apply (hard_prox_length_mismatch Scenario.opt (Scenario.mem [-5] [3; 4])
           Scenario.l_v [-5] [3; 4]).
  - reflexivity.
  - reflexivity.
  - discriminate.
Defined.

(** X11. [objective] raises ValueError, writing nothing, when [x] has
    not as many entries as the operator has columns, and when the number
    of observations differs from the number of rows with neither of them
    one; a single observation is not refused but compared with every
    row. *)
Theorem objective_length_mismatch
    (self : Optimizer) (h : store) (x : loc) (xs os : list Q) :
  h !! x = Some xs →
  h !! obs self = Some os →
  (length xs ≠ np.shape1 (obs_mat self) →
   objective self x h = (Raise ValueError, h)) ∧
  (length xs = np.shape1 (obs_mat self) →
   length (np.rows (obs_mat self)) ≠ length os →
   length (np.rows (obs_mat self)) ≠ 1%nat →
   length os ≠ 1%nat →
   objective self x h = (Raise ValueError, h)) ∧
  (∀ o : Q,
   length xs = np.shape1 (obs_mat self) →
   os = [o] →
   length (np.rows (obs_mat self)) ≠ 1%nat →
   objective self x h
   = (Ok (np.sum (np.abs (map (fun r => Qabs (np.dotp r xs) - o)
                              (np.rows (obs_mat self))))), h)).
Proof.
  intros Hx Ho. split; [|split].
  - intros Hlx. unfold objective. run_load.
    rewrite lift_run. unfold np.dot. by rewrite decide_False by done.
  - intros Hlx Hnm Hn Hm. unfold objective. run_load.
    rewrite lift_run. unfold np.dot. rewrite decide_True by done.
    run_load.
    rewrite lift_run, broadcast2_mismatch; [done| | |done];
      unfold np.abs; by rewrite !length_map.
  - intros o Hlx -> Hn. unfold objective. run_load.
    rewrite lift_run. unfold np.dot. rewrite decide_True by done.
    run_load.
    rewrite lift_run, broadcast2_right1
      by (unfold np.abs; by rewrite !length_map).
    unfold np.abs. by rewrite !map_map.
Qed.

Lemma objective_length_mismatch_witness :
  (length ([3; 4] : list Q) ≠ np.shape1 (obs_mat Scenario.opt) →
   objective Scenario.opt Scenario.l_x (Mismatch.mem [3] [3; 4])
   = (Raise ValueError, Mismatch.mem [3] [3; 4])) ∧
  (length ([3; 4] : list Q) = np.shape1 (obs_mat Scenario.opt) →
   length (np.rows (obs_mat Scenario.opt)) ≠ length ([3] : list Q) →
   length (np.rows (obs_mat Scenario.opt)) ≠ 1%nat →
   length ([3] : list Q) ≠ 1%nat →
   objective Scenario.opt Scenario.l_x (Mismatch.mem [3] [3; 4])
   = (Raise ValueError, Mismatch.mem [3] [3; 4])) ∧
  (∀ o : Q,
   length ([3; 4] : list Q) = np.shape1 (obs_mat Scenario.opt) →
   [3] = [o] →
   length (np.rows (obs_mat Scenario.opt)) ≠ 1%nat →
   objective Scenario.opt Scenario.l_x (Mismatch.mem [3] [3; 4])
   = (Ok (np.sum (np.abs (map (fun r => Qabs (np.dotp r [3; 4]) - o)
                              (np.rows (obs_mat Scenario.opt))))),
      Mismatch.mem [3] [3; 4])).
Proof.
  apply (objective_length_mismatch Scenario.opt (Mismatch.mem [3] [3; 4])
           Scenario.l_x [3; 4] [3]).
  - reflexivity.
  - reflexivity.
Defined.

(** ** The fitting history *)

(** X12. The histories hold what was recorded, in the order of the
    calls, a NaN standing for every omitted value: recording appends to
    what is there, and after [reset_solver_info] the histories are
    exactly the recorded values, whatever was recorded before. *)
Theorem record_all_history
    (self : Optimizer) (args : list (option pyfloat * option pyfloat)) :
  obj_his (record_all self args)
  = obj_his self ++ map (fun a => default NaN a.1) args ∧
  err_his (record_all self args)
  = err_his self ++ map (fun a => default NaN a.2) args ∧
  obj_his (record_all (reset_solver_info self) args)
  = map (fun a => default NaN a.1) args ∧
  err_his (record_all (reset_solver_info self) args)
  = map (fun a => default NaN a.2) args.
Proof.
  assert (H : ∀ s : Optimizer,
             obj_his (record_all s args)
             = obj_his s ++ map (fun a => default NaN a.1) args ∧
             err_his (record_all s args)
             = err_his s ++ map (fun a => default NaN a.2) args).
  { induction args as [|[obj err] args IH]; intros s.
    - simpl. by rewrite !app_nil_r.
    - unfold record_all in *. simpl foldl.
      destruct (IH (record_solver_info s obj err)) as [-> ->].
      simpl. by rewrite <- !app_assoc. }
  destruct (H self) as [-> ->].
  destruct (H (reset_solver_info self)) as [-> ->]. done.
Qed.

(** ** Sequences of calls *)

Lemma arrays_persist_refl (h : store) : arrays_persist h h.
Proof. intros l a Hl. eauto. Qed.

Lemma arrays_persist_trans (h1 h2 h3 : store) :
  arrays_persist h1 h2 → arrays_persist h2 h3 → arrays_persist h1 h3.
Proof.
  intros H12 H23 l a Hl.
  destruct (H12 l a Hl) as (a2 & Hl2 & Hlen2).
  destruct (H23 l a2 Hl2) as (a3 & Hl3 & Hlen3).
  exists a3. split; [done|congruence].
Qed.

Lemma arrays_persist_alloc (h : store) (b : list Q) :
  arrays_persist h (<[fresh (dom h) := b]> h).
Proof.
  intros l a Hl. exists a. split; [|done].
  rewrite lookup_insert_ne; [done|].
  intros <-. by rewrite fresh_None in Hl.
Qed.

Lemma arrays_persist_abs (h : store) (v : loc) (vs : list Q) :
  h !! v = Some vs → arrays_persist h (<[v := np.abs vs]> h).
Proof.
  intros Hv l a Hl. destruct (decide (l = v)) as [->|Hne].
  - exists (np.abs vs). rewrite lookup_insert_eq. split; [done|].
    rewrite Hv in Hl. injection Hl as <-. unfold np.abs.
    by rewrite length_map.
  - exists a. by rewrite lookup_insert_ne.
Qed.

Lemma soft_prox_persist (self : Optimizer) (v : loc) (alpha : Q) (h : store) :
  arrays_persist h (_soft_prox self v alpha h).2.
Proof.
  destruct (h !! v) as [vs|] eqn:Hv.
  - pose proof (arrays_persist_abs h v vs Hv) as Habs.
    destruct (h !! obs self) as [os|] eqn:Ho.
    + destruct (soft_prox_store self h v vs os Hv Ho alpha)
        as (r & b & -> & _). simpl.
      eapply arrays_persist_trans; [exact Habs|].
      rewrite <- (dom_overwrite h v (np.abs vs) vs Hv).
      apply arrays_persist_alloc.
    + assert (Hne : obs self ≠ v) by congruence.
      unfold _soft_prox. run_load.
      rewrite lift_run, inplace2_ok, mul_sign_abs
        by (unfold np.sign; by rewrite length_map).
      rewrite bind_run, (store_at_ok _ _ _ _ Hv).
      rewrite bind_run. unfold load at 1.
      rewrite lookup_insert_ne, Ho by done. exact Habs.
  - unfold _soft_prox. rewrite bind_run. unfold load at 1. rewrite Hv.
    apply arrays_persist_refl.
Qed.

Lemma hard_prox_persist (self : Optimizer) (v : loc) (h : store) :
  arrays_persist h (_hard_prox self v h).2.
Proof.
  destruct (h !! v) as [vs|] eqn:Hv.
  - destruct (h !! obs self) as [os|] eqn:Ho.
    + destruct (hard_prox_store self h v vs os Hv Ho) as (r & b & -> & _).
      apply arrays_persist_alloc.
    + unfold _hard_prox. run_load.
      rewrite bind_run. unfold load at 1. rewrite Ho.
      apply arrays_persist_refl.
  - unfold _hard_prox. rewrite bind_run. unfold load at 1. rewrite Hv.
    apply arrays_persist_refl.
Qed.

Lemma returning_store {A} (f : A → pyvalue) (m : M A) (h : store) :
  (returning f m h).2 = (m h).2.
Proof. unfold returning. rewrite bind_run. by destruct (m h) as [[a|e] h']. Qed.

Lemma invoke_persist (c : call) (self : Optimizer) (h : store) :
  arrays_persist h (invoke c self h).2.
Proof.
  destruct c; simpl; try apply arrays_persist_refl.
  - destruct (returning _ _ h) as [r h'] eqn:Hr. simpl.
    replace h' with (returning PyArray (_soft_prox self v alpha) h).2
      by (by rewrite Hr).
    rewrite returning_store. apply soft_prox_persist.
  - destruct (returning _ _ h) as [r h'] eqn:Hr. simpl.
    replace h' with (returning PyArray (_hard_prox self v) h).2
      by (by rewrite Hr).
    rewrite returning_store. apply hard_prox_persist.
  - destruct (returning _ _ h) as [r h'] eqn:Hr. simpl.
    replace h' with (returning PyFloat (objective self x) h).2
      by (by rewrite Hr).
    rewrite returning_store, objective_store. apply arrays_persist_refl.
Qed.

Lemma invoke_all_cons (c : call) (cs : list call) (self : Optimizer)
    (h : store) :
  invoke_all (c :: cs) self h
  = invoke_all cs (invoke c self h).1.2 (invoke c self h).2.
Proof.
  unfold invoke_all. simpl. by destruct (invoke c self h) as [[r s] h'].
Qed.

Lemma invoke_fields (c : call) (self : Optimizer) (h : store) :
  obs_mat (invoke c self h).1.2 = obs_mat self ∧
  obs (invoke c self h).1.2 = obs self ∧
  obj_type (invoke c self h).1.2 = obj_type self ∧
  num_obs (invoke c self h).1.2 = num_obs self ∧
  image_size (invoke c self h).1.2 = image_size self ∧
  (aligned self → aligned (invoke c self h).1.2).
Proof.
  destruct (invoke_histories c self h) as [->|[->|(obj & err & ->)]];
    repeat split; try done.
  unfold aligned. simpl. rewrite !length_app. simpl. lia.
Qed.

(** X13. Whatever calls are made on an optimizer, in whatever order and
    whether they raise or not, its operator, its observation array, its
    objective type, [num_obs] and [image_size] stay those it had, aligned
    histories stay aligned, and every array of the store is still there
    with the length it had. *)
Theorem invoke_all_invariants
    (cs : list call) (self : Optimizer) (h : store) :
  obs_mat (invoke_all cs self h).1 = obs_mat self ∧
  obs (invoke_all cs self h).1 = obs self ∧
  obj_type (invoke_all cs self h).1 = obj_type self ∧
  num_obs (invoke_all cs self h).1 = num_obs self ∧
  image_size (invoke_all cs self h).1 = image_size self ∧
  (aligned self → aligned (invoke_all cs self h).1) ∧
  arrays_persist h (invoke_all cs self h).2.
Proof.
  revert self h. induction cs as [|c cs IH]; intros self h.
  - repeat split; try done. apply arrays_persist_refl.
  - rewrite invoke_all_cons.
    destruct (IH (invoke c self h).1.2 (invoke c self h).2)
      as (-> & -> & -> & -> & -> & Hal & Hp).
    pose proof (invoke_persist c self h) as Hp0.
    destruct (invoke_fields c self h) as (-> & -> & -> & -> & -> & Hal0).
    repeat split; try done; [auto|by eapply arrays_persist_trans].
Qed.

(** ** The soft proximal operator for any [alpha] *)

Lemma soft_pipeline_any (alpha : Q) (o vs : list Q) :
  length vs = length o →
  let a := np.abs vs in
  let r := zip_with Qgtb a (map (fun x => x + alpha) o) in
  let l := zip_with Qltb a (map (fun x => x - alpha) o) in
  zip_with Qmult
    (np.put (np.put o r (map (fun x => x - alpha) (np.select a r)))
            l (map (fun x => x + alpha) (np.select a l)))
    (np.sign vs)
  = zip_with (soft_coord_in_order alpha) o vs.
Proof.
  revert vs. induction o as [|x o IH]; intros [|y vs]; simpl; try done.
  intros [= Hlen]. specialize (IH vs Hlen). simpl in IH.
  unfold soft_coord_in_order at 1.
  destruct (Qgtb (Qabs y) (x + alpha)) eqn:Hr;
    destruct (Qltb (Qabs y) (x - alpha)) eqn:Hl; simpl; by rewrite ?IH.
Qed.

Lemma soft_prox_run_any
    (self : Optimizer) (h : store) (v : loc) (vs os : list Q) (alpha : Q) :
  h !! v = Some vs → h !! obs self = Some os →
  length vs = length os →
  _soft_prox self v alpha h
  = (Ok (fresh (dom h)),
     <[fresh (dom h) :=
         zip_with (soft_coord_in_order alpha) (obs_as_read self v vs os) vs]>
       (<[v := np.abs vs]> h)).
Proof.
  intros Hv Ho Hlen. unfold _soft_prox.
  pose proof (obs_after_abs self h v vs os Ho) as Ho1.
  pose proof (obs_as_read_length self v vs os Hlen) as Hlr.
  set (os' := obs_as_read self v vs os) in *.
  set (h1 := <[v := np.abs vs]> h) in *.
  assert (Hv1 : h1 !! v = Some (np.abs vs)) by apply lookup_insert_eq.
  assert (Hd : dom h1 = dom h) by (by eapply dom_overwrite).
  set (w := fresh (dom h)).
  assert (Hw : h1 !! w = None) by (subst w; rewrite <- Hd; apply fresh_None).
  assert (Hwv : w ≠ v) by congruence.
  assert (Hwo : w ≠ obs self) by congruence.
  assert (Hla : length (np.abs vs) = length os')
    by (unfold np.abs; rewrite length_map; congruence).
  run_load.
  rewrite lift_run, inplace2_ok, mul_sign_abs
    by (unfold np.sign; by rewrite length_map).
  rewrite bind_run, (store_at_ok _ _ _ _ Hv). fold h1.
  run_load.
  rewrite bind_run. unfold alloc at 1. rewrite Hd. fold w.
  run_load. run_load.
  rewrite lift_run, broadcast2_ok by (by rewrite length_map).
  run_load. run_load.
  rewrite lift_run, broadcast2_ok by (by rewrite length_map).
  set (r := zip_with Qgtb _ _). set (l := zip_with Qltb _ _).
  assert (Hr : length r = length os')
    by (subst r; rewrite length_zip_with, length_map; lia).
  assert (Hl : length l = length os')
    by (subst l; rewrite length_zip_with, length_map; lia).
  run_load. rewrite lift_run, getmask_ok by congruence.
  run_load. rewrite lift_run, setmask_select_ok by congruence.
  run_store.
  run_load. rewrite lift_run, getmask_ok by congruence.
  run_load.
  rewrite lift_run, setmask_select_ok by (rewrite ?put_length; congruence).
  run_store.
  run_load.
  rewrite lift_run, inplace2_ok
    by (unfold np.sign; rewrite !put_length, length_map; congruence).
  run_store.
  unfold mret, M_ret. do 2 f_equal.
  subst r l. apply soft_pipeline_any. congruence.
Qed.

(** X14. For every [alpha], also zero or negative, the soft proximal
    operator returns at each coordinate what its statements compute in
    order: the observation, replaced by [|v| - alpha] where
    [|v| > obs + alpha], then replaced by [|v| + alpha] where
    [|v| < obs - alpha], times [sign v].  Both comparisons can hold only
    for a negative [alpha], and then the second assignment wins. *)
Theorem soft_prox_any_alpha
    (self : Optimizer) (h : store) (v : loc) (vs os : list Q) (alpha : Q) :
  h !! v = Some vs →
  h !! obs self = Some os →
  length vs = length os →
  ∃ (w : loc) (ws : list Q) (h' : store) (os' : list Q),
    _soft_prox self v alpha h = (Ok w, h') ∧
    h' !! w = Some ws ∧
    h' !! obs self = Some os' ∧
    (v ≠ obs self ∨ Forall (Qle 0) os → os' = os) ∧
    ws = zip_with (soft_coord_in_order alpha) os' vs ∧
    ∀ (i : nat) (o x : Q), os' !! i = Some o → vs !! i = Some x →
      (o + alpha < Qabs x → Qabs x < o - alpha → alpha < 0) ∧
      (Qabs x < o - alpha → ws !! i = Some ((Qabs x + alpha) * Qsgn x)) ∧
      (o - alpha <= Qabs x → o + alpha < Qabs x →
         ws !! i = Some ((Qabs x - alpha) * Qsgn x)) ∧
      (o - alpha <= Qabs x → Qabs x <= o + alpha →
         ws !! i = Some (o * Qsgn x)).
Proof.
  intros Hv Ho Hlen.
  pose proof (obs_after_abs self h v vs os Ho) as Ho1.
  assert (Hw : h !! fresh (dom h) = None) by apply fresh_None.
  exists (fresh (dom h)), (zip_with (soft_coord_in_order alpha)
                             (obs_as_read self v vs os) vs).
  eexists _, (obs_as_read self v vs os).
  split; [by apply soft_prox_run_any|].
  split; [apply lookup_insert_eq|]. split.
  { rewrite lookup_insert_ne by congruence. exact Ho1. }
  split; [exact (obs_as_read_same self h v vs os Hv Ho)|].
  split; [reflexivity|].
  intros i o x Hio Hix. rewrite lookup_zip_with, Hio, Hix. simpl.
  unfold soft_coord_in_order.
  destruct (Qgtb (Qabs x) (o + alpha)) eqn:Hr;
    [apply Qgtb_gt in Hr | apply Qgtb_le in Hr];
    (destruct (Qltb (Qabs x) (o - alpha)) eqn:Hl;
       [apply Qltb_lt in Hl | apply Qltb_ge in Hl]).
  all: repeat split; intros; try done; lra.
Qed.

Lemma soft_prox_any_alpha_witness :
  ∃ (w : loc) (ws : list Q) (h' : store) (os' : list Q),
    _soft_prox Scenario.opt Scenario.l_v (- (2))
      (Scenario.mem [-4; 5] [3; 4]) = (Ok w, h') ∧
    h' !! w = Some ws ∧
    h' !! obs Scenario.opt = Some os' ∧
    (Scenario.l_v ≠ obs Scenario.opt ∨ Forall (Qle 0) [3; 4] →
     os' = [3; 4]) ∧
    ws = zip_with (soft_coord_in_order (- (2))) os' [-4; 5] ∧
    ∀ (i : nat) (o x : Q),
      os' !! i = Some o → ([-4; 5] : list Q) !! i = Some x →
      (o + - (2) < Qabs x → Qabs x < o - - (2) → - (2) < 0) ∧
      (Qabs x < o - - (2) →
         ws !! i = Some ((Qabs x + - (2)) * Qsgn x)) ∧
      (o - - (2) <= Qabs x → o + - (2) < Qabs x →
         ws !! i = Some ((Qabs x - - (2)) * Qsgn x)) ∧
      (o - - (2) <= Qabs x → Qabs x <= o + - (2) →
         ws !! i = Some (o * Qsgn x)).
Proof.
  apply (soft_prox_any_alpha Scenario.opt (Scenario.mem [-4; 5] [3; 4])
           Scenario.l_v [-4; 5] [3; 4] (- (2))).
  - reflexivity.
  - reflexivity.
  - reflexivity.
Defined.

(** With a negative [alpha] both assignments apply and the second one
    wins: observations [3, 4], [v = [-4, 5]] and [alpha = -2] give
    [-(4 - 2), 5 - 2]. *)
Example soft_prox_negative_alpha :
  _soft_prox Scenario.opt Scenario.l_v (- (2)) (Scenario.mem [-4; 5] [3; 4])
  = (Ok 4%positive,
     <[4%positive := [-2; 3]]> (Scenario.mem [4; 5] [3; 4])).
Proof. vm_compute. reflexivity. Qed.

(** ** The two proximal operators together *)

(** X15. Where every magnitude of [v] is within [alpha] of its
    observation, the soft proximal operator returns exactly what the
    hard one returns. *)
Theorem soft_prox_is_hard_in_band
    (self : Optimizer) (h : store) (v : loc) (vs os : list Q) (alpha : Q) :
  h !! v = Some vs →
  h !! obs self = Some os →
  v ≠ obs self ∨ Forall (Qle 0) os →
  Forall2 (fun x o => Qabs (Qabs x - o) <= alpha) vs os →
  ∃ (w w' : loc) (ws : list Q) (h1 h2 : store),
    _soft_prox self v alpha h = (Ok w, h1) ∧
    _hard_prox self v h = (Ok w', h2) ∧
    h1 !! w = Some ws ∧ h2 !! w' = Some ws.
Proof.
  intros Hv Ho Halias Hband.
  assert (Hlen : length vs = length os) by (by eapply Forall2_length).
  pose proof (obs_as_read_same self h v vs os Hv Ho Halias) as Hs.
  eexists _, _, _, _, _.
  split; [by apply (soft_prox_run_any self h v vs os)|].
  split; [by apply (hard_prox_run self h v vs os)|].
  split; [apply lookup_insert_eq|].
  rewrite lookup_insert_eq, Hs. f_equal.
  clear -Hband. induction Hband as [|x o vs os Hxo _ IH]; simpl; [done|].
  rewrite IH. f_equal. unfold hard_coord, soft_coord_in_order.
  apply Qabs_Qle_condition in Hxo.
  destruct (Qgtb (Qabs x) (o + alpha)) eqn:Hr;
    [apply Qgtb_gt in Hr; lra|].
  destruct (Qltb (Qabs x) (o - alpha)) eqn:Hl;
    [apply Qltb_lt in Hl; lra|].
  apply Qmult_comm_eq.
Qed.

Lemma soft_prox_is_hard_in_band_witness :
  ∃ (w w' : loc) (ws : list Q) (h1 h2 : store),
    _soft_prox Scenario.opt Scenario.l_v 2 (Scenario.mem [-5; 3] [3; 4])
    = (Ok w, h1) ∧
    _hard_prox Scenario.opt Scenario.l_v (Scenario.mem [-5; 3] [3; 4])
    = (Ok w', h2) ∧
    h1 !! w = Some ws ∧ h2 !! w' = Some ws.
Proof.
  apply (soft_prox_is_hard_in_band Scenario.opt
           (Scenario.mem [-5; 3] [3; 4]) Scenario.l_v [-5; 3] [3; 4] 2).
  - reflexivity.
  - reflexivity.
  - left. discriminate.
  - repeat constructor; discriminate.
Defined.

(** X16. The hard proximal operator looks at the signs of [v] only:
    rescaling [v] by a positive factor does not change what it
    returns. *)
Theorem hard_prox_scale_invariant
    (self : Optimizer) (h : store) (v v' : loc) (vs os : list Q) (c : Q) :
  h !! v = Some vs →
  h !! v' = Some (map (Qmult c) vs) →
  h !! obs self = Some os →
  length vs = length os →
  0 < c →
  ∃ (w w' : loc) (ws : list Q) (h1 h2 : store),
    _hard_prox self v h = (Ok w, h1) ∧
    _hard_prox self v' h = (Ok w', h2) ∧
    h1 !! w = Some ws ∧ h2 !! w' = Some ws.
Proof.
  intros Hv Hv' Ho Hlen Hc.
  eexists _, _, _, _, _.
  split; [by apply (hard_prox_run self h v vs os)|]. split.
  { apply (hard_prox_run self h v' (map (Qmult c) vs) os); try done.
    by rewrite length_map. }
  split; [apply lookup_insert_eq|].
  rewrite lookup_insert_eq. f_equal.
  clear -Hc. revert vs. induction os as [|o os IH]; intros [|x vs];
    simpl; try done.
  rewrite IH. f_equal. unfold hard_coord. f_equal.
  destruct c as [cn cd], x as [n d]. unfold Qlt in Hc. simpl in Hc.
  unfold Qsgn, Qmult. simpl. f_equal.
  rewrite Z.sgn_mul, (Z.sgn_pos cn) by lia. lia.
Qed.

Lemma hard_prox_scale_invariant_witness :
  ∃ (w w' : loc) (ws : list Q) (h1 h2 : store),
    _hard_prox Scenario.opt Scenario.l_v (Scenario.mem [-5; 3] [-10; 6])
    = (Ok w, h1) ∧
    _hard_prox Scenario.opt Scenario.l_x (Scenario.mem [-5; 3] [-10; 6])
    = (Ok w', h2) ∧
    h1 !! w = Some ws ∧ h2 !! w' = Some ws.
Proof.
  apply (hard_prox_scale_invariant Scenario.opt
           (Scenario.mem [-5; 3] [-10; 6]) Scenario.l_v Scenario.l_x
           [-5; 3] [3; 4] 2).
  - reflexivity.
  - reflexivity.
  - reflexivity.
  - reflexivity.
  - reflexivity.
Defined.

(** X17. Both proximal operators are odd: for an array holding [-v]
    they return the opposite of what they return for [v]. *)
Theorem prox_odd
    (self : Optimizer) (h : store) (v v' : loc) (vs os : list Q) (alpha : Q) :
  h !! v = Some vs →
  h !! v' = Some (map Qopp vs) →
  h !! obs self = Some os →
  v ≠ obs self →
  v' ≠ obs self →
  length vs = length os →
  (∃ (w w' : loc) (ws ws' : list Q) (h1 h2 : store),
     _soft_prox self v alpha h = (Ok w, h1) ∧
     _soft_prox self v' alpha h = (Ok w', h2) ∧
     h1 !! w = Some ws ∧ h2 !! w' = Some ws' ∧
     Forall2 (fun y y' => y' == - y) ws ws') ∧
  (∃ (w w' : loc) (ws ws' : list Q) (h1 h2 : store),
     _hard_prox self v h = (Ok w, h1) ∧
     _hard_prox self v' h = (Ok w', h2) ∧
     h1 !! w = Some ws ∧ h2 !! w' = Some ws' ∧
     Forall2 (fun y y' => y' == - y) ws ws').
Proof.
  intros Hv Hv' Ho Hne Hne' Hlen.
  assert (Hlen' : length (map Qopp vs) = length os)
    by (by rewrite length_map).
  pose proof (obs_as_read_same self h v vs os Hv Ho (or_introl Hne)) as Hs.
  pose proof (obs_as_read_same self h v' (map Qopp vs) os Hv' Ho
                (or_introl Hne')) as Hs'.
  split.
  - eexists _, _, _, _, _, _.
    split; [by apply (soft_prox_run_any self h v vs os)|].
    split; [by apply (soft_prox_run_any self h v' (map Qopp vs) os)|].
    split; [apply lookup_insert_eq|]. split; [apply lookup_insert_eq|].
    rewrite Hs, Hs'. clear -Hlen. revert vs Hlen.
    induction os as [|o os IH]; intros [|x vs]; simpl; try done.
    intros [= Hlen]. constructor; [|by apply IH].
    unfold soft_coord_in_order. rewrite Qabs_opp_eq, Qsgn_opp. ring.
  - eexists _, _, _, _, _, _.
    split; [by apply (hard_prox_run self h v vs os)|].
    split; [by apply (hard_prox_run self h v' (map Qopp vs) os)|].
    split; [apply lookup_insert_eq|]. split; [apply lookup_insert_eq|].
    clear -Hlen. revert vs Hlen.
    induction os as [|o os IH]; intros [|x vs]; simpl; try done.
    intros [= Hlen]. constructor; [apply hard_coord_opp|by apply IH].
Qed.

Lemma prox_odd_witness :
  (∃ (w w' : loc) (ws ws' : list Q) (h1 h2 : store),
     _soft_prox Scenario.opt Scenario.l_v 1 (Scenario.mem [-5; 3] [5; -3])
     = (Ok w, h1) ∧
     _soft_prox Scenario.opt Scenario.l_x 1 (Scenario.mem [-5; 3] [5; -3])
     = (Ok w', h2) ∧
     h1 !! w = Some ws ∧ h2 !! w' = Some ws' ∧
     Forall2 (fun y y' => y' == - y) ws ws') ∧
  (∃ (w w' : loc) (ws ws' : list Q) (h1 h2 : store),
     _hard_prox Scenario.opt Scenario.l_v (Scenario.mem [-5; 3] [5; -3])
     = (Ok w, h1) ∧
     _hard_prox Scenario.opt Scenario.l_x (Scenario.mem [-5; 3] [5; -3])
     = (Ok w', h2) ∧
     h1 !! w = Some ws ∧ h2 !! w' = Some ws' ∧
     Forall2 (fun y y' => y' == - y) ws ws').
Proof.
  apply (prox_odd Scenario.opt (Scenario.mem [-5; 3] [5; -3])
           Scenario.l_v Scenario.l_x [-5; 3] [3; 4] 1).
  - reflexivity.
  - reflexivity.
  - reflexivity.
  - discriminate.
  - discriminate.
  - reflexivity.
Defined.
